(** * Lead deduplication (index.js): a shallow embedding and its properties

    The program loads a list of lead objects, folds them into [records]
    (an array of pairs: the current data object and the list of its
    change-sets, most recent first), and renders a changelog.

    Modelling choices, all taken from index.js:
    - a JavaScript object is the list of its own properties in
      [Object.entries] order; reading a missing property gives [VUndefined];
    - [===] is [strict_eq]; objects and arrays nested in a lead are only
      ever compared by identity and converted to a string, so a reference
      carries its address and its string conversion;
    - numbers are the integers that a lead can hold exactly and that print
      as plain decimals, strings are sequences of code units, and field
      names are assumed not to collide with the members of
      [Object.prototype];
    - [new Date(v).getTime()] belongs to the runtime: the reconciliation
      loop takes it as a parameter, [None] standing for NaN;
    - the loops that mutate [records] and [data] in place are folds that
      return the mutated value. *)

From Stdlib Require Import ZArith String Ascii List Bool Lia.
From stdpp Require Import base list strings pretty.
Import ListNotations.

Open Scope string_scope.
Open Scope Z_scope.
Open Scope list_scope.

(** ** Values and objects *)

Inductive value : Type :=
| VUndefined
| VNull
| VBool (b : bool)
| VNum (n : Z)
| VStr (s : string)
| VRef (addr : nat) (shown : string).

(** [a === b]: no coercion; references are equal when they are the same
    object. *)
Definition strict_eq (a b : value) : bool :=
  match a, b with
  | VUndefined, VUndefined => true
  | VNull, VNull => true
  | VBool x, VBool y => Bool.eqb x y
  | VNum x, VNum y => Z.eqb x y
  | VStr x, VStr y => String.eqb x y
  | VRef x _, VRef y _ => Nat.eqb x y
  | _, _ => false
  end.

(** The string a template literal [`${v}`] puts in place of [v]. *)
Definition toStr (v : value) : string :=
  match v with
  | VUndefined => "undefined"
  | VNull => "null"
  | VBool true => "true"
  | VBool false => "false"
  | VNum n => pretty n
  | VStr s => s
  | VRef _ shown => shown
  end.

Definition obj : Type := list (string * value).

Definition entries (o : obj) : list (string * value) := o.
Definition keys (o : obj) : list string := map fst o.

(** [o[key]] *)
Fixpoint get (key : string) (o : obj) : value :=
  match o with
  | [] => VUndefined
  | (k, v) :: o' => if String.eqb k key then v else get key o'
  end.

Fixpoint has (key : string) (o : obj) : bool :=
  match o with
  | [] => false
  | (k, _) :: o' => String.eqb k key || has key o'
  end.

(** Own-property lookup, telling a missing property from one that holds
    [undefined]. *)
Fixpoint own (key : string) (o : obj) : option value :=
  match o with
  | [] => None
  | (k, v) :: o' => if String.eqb k key then Some v else own key o'
  end.

(** A property name is an array index when it is the canonical decimal
    form of an integer below 2^32 - 1; such properties are enumerated
    first, in ascending order, whenever they were created. *)
Definition digit (c : ascii) : option N :=
  let n := N_of_ascii c in
  if (48 <=? n)%N && (n <=? 57)%N then Some (n - 48)%N else None.

Fixpoint digits (s : string) (acc : N) : option N :=
  match s with
  | EmptyString => Some acc
  | String c s' =>
      match digit c with
      | Some d => digits s' (10 * acc + d)%N
      | None => None
      end
  end.

Definition arrayIndex (key : string) : option N :=
  match key with
  | EmptyString => None
  | _ =>
      match digits key 0%N with
      | Some n =>
          if (n <=? 4294967294)%N && String.eqb (pretty n) key
          then Some n else None
      | None => None
      end
  end.

Fixpoint overwrite (key : string) (val : value) (o : obj) : obj :=
  match o with
  | [] => []
  | (k, v) :: o' =>
      if String.eqb k key then (k, val) :: o'
      else (k, v) :: overwrite key val o'
  end.

Fixpoint insertIndex (n : N) (key : string) (val : value) (o : obj) : obj :=
  match o with
  | [] => [(key, val)]
  | (k, v) :: o' =>
      match arrayIndex k with
      | Some m =>
          if (m <? n)%N then (k, v) :: insertIndex n key val o'
          else (key, val) :: o
      | None => (key, val) :: o
      end
  end.

Definition define (key : string) (val : value) (o : obj) : obj :=
  match arrayIndex key with
  | Some n => insertIndex n key val o
  | None => o ++ [(key, val)]
  end.

(** [o[key] = val]: an existing property keeps its place, a new one is
    created. *)
Definition put (key : string) (val : value) (o : obj) : obj :=
  if has key o then overwrite key val o else define key val o.

(** A record of [records]: [[data, changes]]. *)
Abbreviation record := (obj * list obj)%type.

(** ** The deduplication loop *)

(** [a >= b] on the results of [getTime]; false when a side is NaN. *)
Definition time_ge (a b : option Z) : bool :=
  match a, b with
  | Some x, Some y => (y <=? x)%Z
  | _, _ => false
  end.

(** The callback of [records.findIndex]. *)
Definition sameLead (lead : obj) (r : record) : bool :=
  strict_eq (get "_id" lead) (get "_id" (fst r))
  || strict_eq (get "email" lead) (get "email" (fst r)).

(** [Array.prototype.findIndex]; [None] is the source's [-1]. *)
Fixpoint findIndex {A : Type} (p : A -> bool) (l : list A) : option nat :=
  match l with
  | [] => None
  | x :: l' => if p x then Some 0%nat else option_map S (findIndex p l')
  end.

(** [{...lead, _id: .., email: ..}] *)
Definition mergeData (original lead : obj) : obj :=
  let dupedId := strict_eq (get "_id" original) (get "_id" lead) in
  let dupedEmail := strict_eq (get "email" original) (get "email" lead) in
  put "email" (if dupedEmail then get "email" original else get "email" lead)
    (put "_id" (if dupedId then get "_id" original else get "_id" lead)
       lead).

(** The [reduce] that gathers the changed properties. *)
Definition changedProps (original newData : obj) : obj :=
  fold_left
    (fun changed '(key, val) =>
       if negb (strict_eq (get key newData) val) then put key val changed
       else changed)
    (entries original) [].

Section Dedup.

Variable getTime : value -> option Z.

(** The body of [leads.forEach], from [records] to [records]. *)
Definition dedupLead (records : list record) (lead : obj) : list record :=
  match findIndex (sameLead lead) records with
  | Some existingIndex =>
      match records !! existingIndex with
      | Some (original, changes) =>
          let originalDate := getTime (get "entryDate" original) in
          let incomingDate := getTime (get "entryDate" lead) in
          if time_ge incomingDate originalDate then
            let newData := mergeData original lead in
            let changed := changedProps original newData in
            <[existingIndex := (newData, changed :: changes)]> records
          else records
      | None => records
      end
  | None => records ++ [(lead, [])]
  end.

(** [records] after [leads.forEach]. *)
Definition reconcile (leads : list obj) : list record :=
  fold_left dedupLead leads [].

End Dedup.

(** An instance of the date conversion for the examples. It agrees with
    [new Date(v).getTime()] on numbers, [null], booleans and [undefined];
    strings and references go to NaN, which is what the runtime gives for
    the strings the examples use (none of them is a date). *)
Definition numericTime (v : value) : option Z :=
  match v with
  | VNum n =>
      if (-8640000000000000 <=? n) && (n <=? 8640000000000000)
      then Some n else None
  | VNull => Some 0
  | VBool b => Some (if b then 1 else 0)
  | _ => None
  end.

(** [records.map(record => record[0])] in [writeRecords]. *)
Definition recordsWithoutChanges (records : list record) : list obj :=
  map fst records.

(** ** The changelog *)

Inductive outcome (A : Type) : Type :=
| Returned (a : A)
| TypeError.
Arguments Returned {A} a.
Arguments TypeError {A}.

(** [Object.entries(change).forEach(...)]: the previous value goes in
    front of the current one. *)
Definition chainChange (data change : obj) : obj :=
  fold_left
    (fun data '(changedProp, changedVal) =>
       put changedProp
         (VStr (toStr changedVal +:+ " ==> " +:+ toStr (get changedProp data)))
         data)
    (entries change) data.

(** [changes.forEach(...)], in storage order. *)
Definition chainChanges (data : obj) (changes : list obj) : obj :=
  fold_left chainChange changes data.

(** The comparator given to [sort]. *)
Definition byLength (firstEl secondEl : string) : Z :=
  if (String.length firstEl <? String.length secondEl)%nat then 1 else -1.

(** [Array.prototype.sort] as an insertion sort: an element moves behind
    the ones the comparator puts before it. The runtime's algorithm is
    not fixed for a comparator like [byLength], which never answers 0;
    [sort_byLength_head] shows that the length read from the first element
    does not depend on that choice for this model. *)
Fixpoint insertSorted (cmp : string -> string -> Z) (x : string)
    (l : list string) : list string :=
  match l with
  | [] => [x]
  | y :: l' => if 0 <? cmp x y then y :: insertSorted cmp x l' else x :: l
  end.

Definition sort (cmp : string -> string -> Z) (l : list string) : list string :=
  fold_left (fun sorted x => insertSorted cmp x sorted) l [].

(** [....sort(...)[0].length]: reading [length] of [undefined] throws. *)
Definition longestPropLength (data : obj) : outcome nat :=
  match sort byLength (keys data) with
  | [] => TypeError
  | longest :: _ => Returned (String.length longest)
  end.

(** The line feed of ['\n']. *)
Definition newline : string := String (ascii_of_nat 10) EmptyString.

Fixpoint spaces (n : nat) : string :=
  match n with
  | O => ""
  | S n' => String " " (spaces n')
  end.

(** [key.padStart(n)] *)
Definition padStart (n : nat) (key : string) : string :=
  spaces (n - String.length key) +:+ key.

Definition logLine (n : nat) (key : string) (val : value) : string :=
  padStart n key +:+ ": " +:+ toStr val +:+ newline.

(** [Object.entries(data).forEach(...)], appending to [fullLog]. *)
Definition logLines (n : nat) (data : obj) (fullLog : string) : string :=
  fold_left (fun fullLog '(key, val) => fullLog +:+ logLine n key val)
    (entries data) fullLog.

(** [records.forEach((record, index) => ...)] of [writeLog], from [index]
    on. It gives [fullLog] and the records as the loop leaves them: [data]
    is the record's own object, so the chains are written into it. *)
Fixpoint logRecords (index : nat) (records : list record) (fullLog : string)
  : outcome (string * list record) :=
  match records with
  | [] => Returned (fullLog, [])
  | (data, changes) :: rest =>
      let data := chainChanges data changes in
      match longestPropLength data with
      | TypeError => TypeError
      | Returned n =>
          let fullLog :=
            match index with O => fullLog | S _ => fullLog +:+ newline end in
          let fullLog := logLines n data fullLog in
          match logRecords (S index) rest fullLog with
          | TypeError => TypeError
          | Returned (log, rest') => Returned (log, (data, changes) :: rest')
          end
      end
  end.

(** [writeLog] up to the call of [writeFile]: the string it writes and
    the state of [records] afterwards, or the exception that leaves the
    function before its [try]. *)
Definition writeLog (records : list record) : outcome (string * list record) :=
  logRecords 0 records "".

(** [chainChange] entry by entry. *)
Definition chainEntry (data : obj) (kv : string * value) : obj :=
  put (fst kv)
    (VStr (toStr (snd kv) +:+ " ==> " +:+ toStr (get (fst kv) data))) data.

(** [records] after the loop of [writeLog]: the change-sets are kept, the
    data objects hold the chains. *)
Definition afterWriteLog (records : list record) : list record :=
  map (fun r => (chainChanges (fst r) (snd r), snd r)) records.

(** ** What the properties speak about *)

(** *** Identity keys *)

Definition sharesKey (a b : obj) : bool :=
  strict_eq (get "_id" a) (get "_id" b)
  || strict_eq (get "email" a) (get "email" b).

(** No two records of [records] read the same [_id] or the same [email]. *)
Definition uniqueKeys (records : list record) : Prop :=
  forall i j r1 r2,
    records !! i = Some r1 -> records !! j = Some r2 ->
    sharesKey (fst r1) (fst r2) = true -> i = j.

(** Sharing an identity key is transitive on [leads]: when a lead shares
    [_id] or [email] with a second one and the second with a third, the
    first shares [_id] or [email] with the third. *)
Definition sharingIsTransitive (leads : list obj) : bool :=
  forallb
    (fun l1 =>
       forallb
         (fun l2 =>
            forallb
              (fun l3 =>
                 implb (sharesKey l1 l2 && sharesKey l2 l3) (sharesKey l1 l3))
              leads)
         leads)
    leads.

(** The [_id] of every record is the [_id] of a lead and its [email] the
    [email] of a lead, two leads that share a key. *)
Definition keysOfLeads (leads : list obj) (records : list record) : Prop :=
  forall r, r ∈ records ->
    exists la lb, la ∈ leads /\ lb ∈ leads /\
      strict_eq (get "_id" (fst r)) (get "_id" la) = true /\
      strict_eq (get "email" (fst r)) (get "email" lb) = true /\
      sharesKey la lb = true.

(** Leads that match two different records share no key. *)
Definition apartRecords (leads : list obj) (records : list record) : Prop :=
  forall i j ri rj x y,
    records !! i = Some ri -> records !! j = Some rj -> i <> j ->
    x ∈ leads -> y ∈ leads ->
    sharesKey x (fst ri) = true -> sharesKey y (fst rj) = true ->
    sharesKey x y = false.

(** *** Chains and lines of the report *)

(** The values the change-sets hold for [key], in storage order (most
    recent merge first). *)
Definition history (key : string) (changes : list obj) : list value :=
  map snd
    (List.filter (fun kv => String.eqb (fst kv) key)
       (concat (map entries changes))).

(** [strs] joined by [" ==> "]. *)
Fixpoint joinArrow (strs : list string) : string :=
  match strs with
  | [] => ""
  | [s] => s
  | s :: rest => s +:+ " ==> " +:+ joinArrow rest
  end.

(** The chain the report is expected to show for [key]: the recorded
    values from the oldest to the most recent, then the current value. *)
Definition chainOf (key : string) (data : obj) (changes : list obj) : string :=
  joinArrow (map toStr (rev (history key changes)) ++ [toStr (get key data)]).

(** The first element is at least as long as every other one. *)
Definition longestFirst (l : list string) : Prop :=
  match l with
  | [] => True
  | h :: t => forall y, y ∈ t -> (String.length y <= String.length h)%nat
  end.

(** [piece] occurs in [whole]. *)
Definition occursIn (piece whole : string) : Prop :=
  exists pre post, whole = pre +:+ piece +:+ post.

(** The property names every object inherits from [Object.prototype]:
    reading one of them on an object that does not own it gives the
    inherited member, not [undefined]. *)
Definition objectPrototypeNames : list string :=
  ["constructor"; "hasOwnProperty"; "isPrototypeOf"; "propertyIsEnumerable";
   "toLocaleString"; "toString"; "valueOf"; "__proto__";
   "__defineGetter__"; "__defineSetter__"; "__lookupGetter__";
   "__lookupSetter__"].

(** *** Walking the change-sets back *)

(** One change-set applied as a reverse delta: every property it holds
    gets its previous value back. *)
Definition restoreChange (data change : obj) : obj :=
  fold_left (fun data '(key, val) => put key val data) (entries change) data.

(** The change-sets applied from the most recent to the oldest. *)
Definition restore (data : obj) (changes : list obj) : obj :=
  fold_left restoreChange changes data.


Section Created.

Variable getTime : value -> option Z.

(** The loop body, keeping beside [records] the lead each record was
    created from. *)
Definition dedupLeadCreated (state : list record * list obj) (lead : obj)
  : list record * list obj :=
  (dedupLead getTime (fst state) lead,
   match findIndex (sameLead lead) (fst state) with
   | Some _ => snd state
   | None => snd state ++ [lead]
   end).

(** For each record of [reconcile leads], in order, the lead it was
    created from. *)
Definition createdFrom (leads : list obj) : list obj :=
  snd (fold_left dedupLeadCreated leads ([], [])).

End Created.



(** *** The run as a whole *)

(** A lead stored as a record of its own. *)
Definition newRecord (lead : obj) : record := (lead, []).

(** The number of change-sets [records] hold, all records together. *)
Fixpoint changeSetCount (records : list record) : nat :=
  match records with
  | [] => O
  | r :: rest => (length (snd r) + changeSetCount rest)%nat
  end.

(** Every data object reads, on every property, like one of the leads. *)
Definition readsLikeALead (leads : list obj) (records : list record) : Prop :=
  forall r, r ∈ records ->
    exists lead, lead ∈ leads /\
      forall key, strict_eq (get key (fst r)) (get key lead) = true.

(** *** The report, block by block *)

(** The lines of one record: its data after [changes.forEach], each
    property padded to the longest property name. *)
Definition blockOf (r : record) : outcome string :=
  let data := chainChanges (fst r) (snd r) in
  match longestPropLength data with
  | TypeError => TypeError
  | Returned n => Returned (logLines n data "")
  end.

(** The blocks of all records, unless one of them throws. *)
Fixpoint blocksOf (records : list record) : outcome (list string) :=
  match records with
  | [] => Returned []
  | r :: rest =>
      match blockOf r with
      | TypeError => TypeError
      | Returned b =>
          match blocksOf rest with
          | TypeError => TypeError
          | Returned bs => Returned (b :: bs)
          end
      end
  end.

(** Blocks with one line feed between two of them. *)
Fixpoint joinBlocks (blocks : list string) : string :=
  match blocks with
  | [] => ""
  | [b] => b
  | b :: rest => b +:+ newline +:+ joinBlocks rest
  end.

(** The blocks after the first one, each behind its line feed. *)
Fixpoint laterBlocks (blocks : list string) : string :=
  match blocks with
  | [] => ""
  | b :: rest => newline +:+ b +:+ laterBlocks rest
  end.

(** ** Example leads *)

(** The run of the specification's example: a lead, a later lead with the
    same [_id], a stale one. *)
Definition al : obj :=
  [("_id", VNum 1); ("email", VStr "a@x.com"); ("entryDate", VNum 100);
   ("name", VStr "Al")].
Definition bob : obj :=
  [("_id", VNum 1); ("email", VStr "b@x.com"); ("entryDate", VNum 200);
   ("name", VStr "Bob")].
Definition stale : obj :=
  [("_id", VNum 1); ("email", VStr "c@x.com"); ("entryDate", VNum 50);
   ("name", VStr "Old")].

(** A lead whose [entryDate] is not a date. *)
Definition undated : obj :=
  [("_id", VNum 1); ("email", VStr "z@x.com"); ("entryDate", VStr "soon");
   ("name", VStr "Zed")].

(** Two leads without [_id]. *)
Definition anonymous1 : obj :=
  [("id", VNum 7); ("email", VStr "p@x.com"); ("entryDate", VNum 10)].
Definition anonymous2 : obj :=
  [("id", VNum 8); ("email", VStr "q@x.com"); ("entryDate", VNum 20)].


(** A later lead for the record of [al] and [bob], without [name]. *)
Definition nameless : obj :=
  [("_id", VNum 1); ("email", VStr "b@x.com"); ("entryDate", VNum 400)].

(** Two distinct leads, and later leads that share a key with each. *)
Definition ann : obj :=
  [("_id", VNum 1); ("email", VStr "a@x.com"); ("entryDate", VNum 100)].
Definition ben : obj :=
  [("_id", VNum 2); ("email", VStr "b@x.com"); ("entryDate", VNum 100)].
Definition ann_with_bens_email : obj :=
  [("_id", VNum 1); ("email", VStr "b@x.com"); ("entryDate", VNum 200)].
Definition ann_with_bens_id : obj :=
  [("_id", VNum 2); ("email", VStr "a@x.com"); ("entryDate", VNum 200)].
Definition ann_later : obj :=
  [("_id", VNum 1); ("email", VStr "a@x.com"); ("entryDate", VNum 300);
   ("name", VStr "Ann")].

(** ** Objects: reading after writing *)

Lemma strict_eq_refl (v : value) : strict_eq v v = true.
Proof.
  destruct v as [| |b|n|s|a sh]; simpl; try reflexivity.
  - destruct b; reflexivity.
  - apply Z.eqb_refl.
  - apply String.eqb_refl.
  - apply Nat.eqb_refl.
Qed.

Lemma strict_eq_sym (v w : value) : strict_eq v w = strict_eq w v.
Proof.
  destruct v, w; simpl; try reflexivity.
  - destruct b, b0; reflexivity.
  - apply Z.eqb_sym.
  - apply String.eqb_sym.
  - apply Nat.eqb_sym.
Qed.

Lemma strict_eq_trans (u v w : value) :
  strict_eq u v = true -> strict_eq v w = true -> strict_eq u w = true.
Proof.
  destruct u, v; simpl; try discriminate; destruct w; simpl;
    try discriminate; try reflexivity.
  - intros H1 H2. apply Bool.eqb_prop in H1, H2. subst.
    apply Bool.eqb_reflx.
  - rewrite !Z.eqb_eq. congruence.
  - rewrite !String.eqb_eq. congruence.
  - rewrite !Nat.eqb_eq. congruence.
Qed.

Lemma strict_eq_cong (a b c : value) :
  strict_eq a b = true -> strict_eq a c = strict_eq b c.
Proof.
  intros Hab. destruct (strict_eq b c) eqn:Hbc.
  - now apply (strict_eq_trans a b c).
  - destruct (strict_eq a c) eqn:Hac; [|reflexivity].
    rewrite <- Hbc. symmetry. apply (strict_eq_trans b a c); [|exact Hac].
    now rewrite strict_eq_sym.
Qed.

Lemma get_own (key : string) (o : obj) :
  get key o = match own key o with Some v => v | None => VUndefined end.
Proof.
  induction o as [|[k v] o IH]; simpl; [reflexivity|].
  destruct (String.eqb k key); [reflexivity | exact IH].
Qed.

Lemma has_own (key : string) (o : obj) :
  has key o = match own key o with Some _ => true | None => false end.
Proof.
  induction o as [|[k v] o IH]; simpl; [reflexivity|].
  destruct (String.eqb k key); [reflexivity | exact IH].
Qed.

Lemma own_elem_of (key : string) (v : value) (o : obj) :
  own key o = Some v -> (key, v) ∈ o.
Proof.
  induction o as [|[k w] o IH]; simpl; [discriminate|].
  destruct (String.eqb_spec k key) as [->|Hne].
  - intros [= ->]. apply list_elem_of_here.
  - intros H. apply list_elem_of_further. now apply IH.
Qed.

Lemma elem_of_keys (key : string) (v : value) (o : obj) :
  (key, v) ∈ o -> key ∈ keys o.
Proof.
  intros H. apply list_elem_of_In. apply list_elem_of_In in H.
  apply (in_map fst) in H. exact H.
Qed.

Lemma own_None_keys (key : string) (o : obj) :
  own key o = None <-> key ∉ keys o.
Proof.
  induction o as [|[k w] o IH]; simpl.
  - split; [intros _; apply not_elem_of_nil | reflexivity].
  - rewrite not_elem_of_cons.
    destruct (String.eqb_spec k key) as [->|Hne].
    + split; [discriminate | intros [H _]; congruence].
    + rewrite IH. split; [intros H; split; [congruence | exact H] | tauto].
Qed.

Lemma own_overwrite (key k' : string) (val : value) (o : obj) :
  own k' (overwrite key val o) =
  if String.eqb key k' then
    match own key o with Some _ => Some val | None => None end
  else own k' o.
Proof.
  induction o as [|[k v] o IH]; simpl.
  - now destruct (String.eqb key k').
  - destruct (String.eqb_spec k key) as [->|Hne]; simpl.
    + destruct (String.eqb_spec key k') as [->|Hne']; reflexivity.
    + rewrite IH.
      destruct (String.eqb_spec key k') as [<-|Hne'].
      * destruct (String.eqb_spec k key); [congruence | reflexivity].
      * reflexivity.
Qed.

Lemma own_insertIndex (n : N) (key k' : string) (val : value) (o : obj) :
  own key o = None ->
  own k' (insertIndex n key val o) =
  if String.eqb key k' then Some val else own k' o.
Proof.
  induction o as [|[k v] o IH]; simpl; intros Hnone.
  - reflexivity.
  - destruct (String.eqb_spec k key) as [->|Hne]; [discriminate|].
    destruct (arrayIndex k) as [m|]; [destruct (m <? n)%N|]; simpl;
      try reflexivity.
    rewrite (IH Hnone).
    destruct (String.eqb_spec key k') as [<-|Hne'].
    + destruct (String.eqb_spec k key); [congruence | reflexivity].
    + reflexivity.
Qed.

Lemma own_app (k' : string) (o o' : obj) :
  own k' (o ++ o') =
  match own k' o with Some v => Some v | None => own k' o' end.
Proof.
  induction o as [|[k v] o IH]; simpl; [reflexivity|].
  destruct (String.eqb k k'); [reflexivity | exact IH].
Qed.

Lemma own_define (key k' : string) (val : value) (o : obj) :
  own key o = None ->
  own k' (define key val o) =
  if String.eqb key k' then Some val else own k' o.
Proof.
  intros Hnone. unfold define. destruct (arrayIndex key) as [n|].
  - now apply own_insertIndex.
  - rewrite own_app. simpl.
    destruct (String.eqb_spec key k') as [<-|Hne].
    + now rewrite Hnone.
    + now destruct (own k' o).
Qed.

(** Reading a property of [o] after [o[key] = val]. *)
Lemma own_put (key k' : string) (val : value) (o : obj) :
  own k' (put key val o) = if String.eqb key k' then Some val else own k' o.
Proof.
  unfold put. rewrite has_own.
  destruct (own key o) as [v|] eqn:E.
  - rewrite own_overwrite, E. reflexivity.
  - now apply own_define.
Qed.

Lemma get_put_eq (key : string) (val : value) (o : obj) :
  get key (put key val o) = val.
Proof. now rewrite get_own, own_put, String.eqb_refl. Qed.

Lemma get_put_ne (key k' : string) (val : value) (o : obj) :
  key <> k' -> get k' (put key val o) = get k' o.
Proof.
  intros Hne. rewrite !get_own, own_put.
  destruct (String.eqb_spec key k'); [congruence | reflexivity].
Qed.

Lemma own_changedProps_from (key : string) (newData original changed0 : obj) :
  NoDup (keys original) ->
  own key
    (fold_left
       (fun changed '(key, val) =>
          if negb (strict_eq (get key newData) val) then put key val changed
          else changed)
       original changed0) =
  match own key original with
  | Some val =>
      if strict_eq (get key newData) val then own key changed0 else Some val
  | None => own key changed0
  end.
Proof.
  revert changed0.
  induction original as [|[k v] original IH]; simpl; intros changed0 Hnd.
  - reflexivity.
  - apply NoDup_cons in Hnd as [Hk Hnd]. rewrite (IH _ Hnd).
    destruct (String.eqb_spec k key) as [->|Hne].
    + apply own_None_keys in Hk. rewrite Hk.
      destruct (strict_eq (get key newData) v); simpl; [reflexivity|].
      now rewrite own_put, String.eqb_refl.
    + assert (Hacc :
        own key (if negb (strict_eq (get k newData) v)
                 then put k v changed0 else changed0) = own key changed0).
      { destruct (strict_eq (get k newData) v); simpl; [reflexivity|].
        rewrite own_put.
        destruct (String.eqb_spec k key); [congruence | reflexivity]. }
      now rewrite Hacc.
Qed.

(** What [changed] holds for each property name. *)
Lemma own_changedProps (key : string) (original newData : obj) :
  NoDup (keys original) ->
  own key (changedProps original newData) =
  match own key original with
  | Some val => if strict_eq (get key newData) val then None else Some val
  | None => None
  end.
Proof.
  intros Hnd. unfold changedProps, entries.
  rewrite (own_changedProps_from key newData original [] Hnd). simpl.
  reflexivity.
Qed.

(** ** The array methods *)

Lemma findIndex_Some {A : Type} (p : A -> bool) (l : list A) (i : nat) :
  findIndex p l = Some i ->
  exists x, l !! i = Some x /\ p x = true /\
    forall j y, (j < i)%nat -> l !! j = Some y -> p y = false.
Proof.
  revert i. induction l as [|x l IH]; simpl; intros i; [discriminate|].
  destruct (p x) eqn:Hp.
  - intros [= <-]. exists x. repeat split; [exact Hp|]. intros j y Hj. lia.
  - destruct (findIndex p l) as [i'|]; simpl; [|discriminate].
    intros [= <-]. destruct (IH i' eq_refl) as (x' & Hx' & Hp' & Hlt).
    exists x'. repeat split; [exact Hx' | exact Hp' |].
    intros [|j] y Hj; simpl.
    + intros [= <-]. exact Hp.
    + apply Hlt. lia.
Qed.

Lemma findIndex_None {A : Type} (p : A -> bool) (l : list A) :
  findIndex p l = None <-> forall x, x ∈ l -> p x = false.
Proof.
  induction l as [|x l IH]; simpl.
  - split; [intros _ y Hy; now apply elem_of_nil in Hy | reflexivity].
  - destruct (p x) eqn:Hp.
    + split; [discriminate|]. intros H.
      rewrite (H x (list_elem_of_here _ _)) in Hp. discriminate.
    + destruct (findIndex p l) as [i|]; simpl.
      * split; [discriminate|]. intros H.
        assert (Hn : Some i = None); [|discriminate].
        apply IH. intros y Hy. apply H. now apply list_elem_of_further.
      * split; [|reflexivity]. intros _ y Hy.
        apply elem_of_cons in Hy as [->|Hy]; [exact Hp|].
        now apply IH.
Qed.

Lemma findIndex_found {A : Type} (p : A -> bool) (l : list A) (x : A) :
  x ∈ l -> p x = true -> exists i, findIndex p l = Some i.
Proof.
  intros Hin Hp. destruct (findIndex p l) as [i|] eqn:E; [now exists i|].
  rewrite findIndex_None in E. rewrite (E x Hin) in Hp. discriminate.
Qed.

(** ** The three ways an incoming lead is handled *)

Section DedupLead.

Variable getTime : value -> option Z.

Lemma dedupLead_new (records : list record) (lead : obj) :
  findIndex (sameLead lead) records = None ->
  dedupLead getTime records lead = records ++ [(lead, [])].
Proof. intros H. unfold dedupLead. now rewrite H. Qed.

Lemma dedupLead_stale (records : list record) (lead original : obj)
    (changes : list obj) (existingIndex : nat) :
  findIndex (sameLead lead) records = Some existingIndex ->
  records !! existingIndex = Some (original, changes) ->
  time_ge (getTime (get "entryDate" lead))
    (getTime (get "entryDate" original)) = false ->
  dedupLead getTime records lead = records.
Proof. intros Hf Hr Ht. unfold dedupLead. now rewrite Hf, Hr, Ht. Qed.

Lemma dedupLead_merge (records : list record) (lead original : obj)
    (changes : list obj) (existingIndex : nat) :
  findIndex (sameLead lead) records = Some existingIndex ->
  records !! existingIndex = Some (original, changes) ->
  time_ge (getTime (get "entryDate" lead))
    (getTime (get "entryDate" original)) = true ->
  dedupLead getTime records lead =
  <[existingIndex :=
      (mergeData original lead,
       changedProps original (mergeData original lead) :: changes)]>
    records.
Proof. intros Hf Hr Ht. unfold dedupLead. now rewrite Hf, Hr, Ht. Qed.

Lemma dedupLead_length (records : list record) (lead : obj) :
  findIndex (sameLead lead) records <> None ->
  length (dedupLead getTime records lead) = length records.
Proof.
  intros Hf. unfold dedupLead.
  destruct (findIndex (sameLead lead) records) as [i|]; [|congruence].
  destruct (records !! i) as [[original changes]|]; [|reflexivity].
  destruct (time_ge _ _); [apply length_insert | reflexivity].
Qed.

End DedupLead.

(** The merged object reads like the incoming lead on every property, up
    to [===]. *)
Lemma mergeData_reads_lead (original lead : obj) (key : string) :
  strict_eq (get key (mergeData original lead)) (get key lead) = true.
Proof.
  unfold mergeData.
  destruct (String.eqb_spec "email" key) as [<-|Hemail].
  - rewrite get_put_eq.
    destruct (strict_eq (get "email" original) (get "email" lead)) eqn:E;
      [exact E | apply strict_eq_refl].
  - rewrite (get_put_ne _ _ _ _ Hemail).
    destruct (String.eqb_spec "_id" key) as [<-|Hid].
    + rewrite get_put_eq.
      destruct (strict_eq (get "_id" original) (get "_id" lead)) eqn:E;
        [exact E | apply strict_eq_refl].
    + rewrite (get_put_ne _ _ _ _ Hid). apply strict_eq_refl.
Qed.

Lemma mergeData_own_other (original lead : obj) (key : string) :
  key <> "_id" -> key <> "email" ->
  own key (mergeData original lead) = own key lead.
Proof.
  intros Hid Hemail. unfold mergeData. rewrite !own_put.
  destruct (String.eqb_spec "email" key); [congruence|].
  destruct (String.eqb_spec "_id" key); [congruence | reflexivity].
Qed.

Lemma mergeData_id (original lead : obj) :
  get "_id" (mergeData original lead) =
  if strict_eq (get "_id" original) (get "_id" lead)
  then get "_id" original else get "_id" lead.
Proof.
  unfold mergeData. rewrite get_put_ne by discriminate. apply get_put_eq.
Qed.

Lemma mergeData_email (original lead : obj) :
  get "email" (mergeData original lead) =
  if strict_eq (get "email" original) (get "email" lead)
  then get "email" original else get "email" lead.
Proof. unfold mergeData. apply get_put_eq. Qed.

(** ** Conflict resolution by [entryDate] *)

(** C2. When the incoming lead matches a record and both [entryDate]s
    parse: an incoming timestamp strictly earlier than the record's leaves
    [records] exactly as it was (data and change-sets alike); an incoming
    timestamp greater than or equal to it puts the incoming data in the
    record: the new data object reads like the lead on every property (up
    to [===]), has the lead's own properties besides [_id] and [email],
    and no other record is touched. *)
Theorem recency_policy (getTime : value -> option Z)
    (records : list record) (lead original : obj) (changes : list obj)
    (existingIndex : nat) (incoming current : Z) :
  findIndex (sameLead lead) records = Some existingIndex ->
  records !! existingIndex = Some (original, changes) ->
  getTime (get "entryDate" lead) = Some incoming ->
  getTime (get "entryDate" original) = Some current ->
  (incoming < current -> dedupLead getTime records lead = records) /\
  (current <= incoming ->
   exists newData changed,
     dedupLead getTime records lead !! existingIndex
       = Some (newData, changed :: changes) /\
     (forall key, strict_eq (get key newData) (get key lead) = true) /\
     (forall key, key <> "_id" -> key <> "email" ->
        own key newData = own key lead) /\
     (forall j, j <> existingIndex ->
        dedupLead getTime records lead !! j = records !! j)).
Proof.
  intros Hf Hr Hin Hcur. split; intros Hcmp.
  - apply (dedupLead_stale getTime _ _ _ _ _ Hf Hr).
    rewrite Hin, Hcur. simpl. lia.
  - assert (Ht : time_ge (getTime (get "entryDate" lead))
                   (getTime (get "entryDate" original)) = true).
    { rewrite Hin, Hcur. simpl. lia. }
    rewrite (dedupLead_merge getTime _ _ _ _ _ Hf Hr Ht).
    exists (mergeData original lead),
      (changedProps original (mergeData original lead)).
    split; [|split; [|split]].
    + apply list_lookup_insert_eq. eapply lookup_lt_Some, Hr.
    + apply mergeData_reads_lead.
    + intros key. apply mergeData_own_other.
    + intros j Hj. now apply list_lookup_insert_ne.
Qed.

Lemma recency_policy_witness :
  (200 < 100 -> dedupLead numericTime [(al, [])] bob = [(al, [])]) /\
  (100 <= 200 ->
   exists newData changed,
     dedupLead numericTime [(al, [])] bob !! 0%nat
       = Some (newData, changed :: []) /\
     (forall key, strict_eq (get key newData) (get key bob) = true) /\
     (forall key, key <> "_id" -> key <> "email" ->
        own key newData = own key bob) /\
     (forall j, j <> 0%nat ->
        dedupLead numericTime [(al, [])] bob !! j = [(al, [])] !! j)).
Proof.
  exact (recency_policy numericTime [(al, [])] bob al [] 0 200 100
           eq_refl eq_refl eq_refl eq_refl).
Defined.

(** The stale branch on the third lead of the example run. *)
Example stale_lead_is_dropped :
  dedupLead numericTime (reconcile numericTime [al; bob]) stale
  = reconcile numericTime [al; bob].
Proof. reflexivity. Qed.

(** C5. When the incoming lead matches a record and either [entryDate]
    gives NaN, the comparison [incomingDate >= originalDate] is false:
    [records] is returned as it was. The loop body is a total function, it
    has no failing outcome. *)
Theorem unparsable_date_loses (getTime : value -> option Z)
    (records : list record) (lead original : obj) (changes : list obj)
    (existingIndex : nat) :
  findIndex (sameLead lead) records = Some existingIndex ->
  records !! existingIndex = Some (original, changes) ->
  getTime (get "entryDate" lead) = None \/
  getTime (get "entryDate" original) = None ->
  dedupLead getTime records lead = records.
Proof.
  intros Hf Hr Hnan. apply (dedupLead_stale getTime _ _ _ _ _ Hf Hr).
  destruct Hnan as [-> | ->]; [reflexivity|].
  now destruct (getTime (get "entryDate" lead)).
Qed.

Lemma unparsable_date_loses_witness :
  dedupLead numericTime [(al, [])] undated = [(al, [])].
Proof.
  exact (unparsable_date_loses numericTime [(al, [])] undated al [] 0
           eq_refl eq_refl (or_introl eq_refl)).
Defined.

(** ** Identity keys in a merge *)

(** C3. In an accepted merge the new data object keeps the record's [_id]
    when [_id] matched and takes the lead's otherwise, and likewise for
    [email]. *)
Theorem matched_key_is_kept (getTime : value -> option Z)
    (records : list record) (lead original : obj) (changes : list obj)
    (existingIndex : nat) :
  findIndex (sameLead lead) records = Some existingIndex ->
  records !! existingIndex = Some (original, changes) ->
  time_ge (getTime (get "entryDate" lead))
    (getTime (get "entryDate" original)) = true ->
  exists newData changed,
    dedupLead getTime records lead !! existingIndex
      = Some (newData, changed :: changes) /\
    (strict_eq (get "_id" lead) (get "_id" original) = true ->
       get "_id" newData = get "_id" original) /\
    (strict_eq (get "_id" lead) (get "_id" original) = false ->
       get "_id" newData = get "_id" lead) /\
    (strict_eq (get "email" lead) (get "email" original) = true ->
       get "email" newData = get "email" original) /\
    (strict_eq (get "email" lead) (get "email" original) = false ->
       get "email" newData = get "email" lead).
Proof.
  intros Hf Hr Ht. rewrite (dedupLead_merge getTime _ _ _ _ _ Hf Hr Ht).
  exists (mergeData original lead),
    (changedProps original (mergeData original lead)).
  split; [apply list_lookup_insert_eq; eapply lookup_lt_Some, Hr|].
  rewrite mergeData_id, mergeData_email.
  rewrite (strict_eq_sym (get "_id" original)),
    (strict_eq_sym (get "email" original)).
  repeat split; intros ->; reflexivity.
Qed.

Lemma matched_key_is_kept_witness :
  exists newData changed,
    dedupLead numericTime [(al, [])] bob !! 0%nat
      = Some (newData, changed :: []) /\
    (strict_eq (get "_id" bob) (get "_id" al) = true ->
       get "_id" newData = get "_id" al) /\
    (strict_eq (get "_id" bob) (get "_id" al) = false ->
       get "_id" newData = get "_id" bob) /\
    (strict_eq (get "email" bob) (get "email" al) = true ->
       get "email" newData = get "email" al) /\
    (strict_eq (get "email" bob) (get "email" al) = false ->
       get "email" newData = get "email" bob).
Proof.
  exact (matched_key_is_kept numericTime [(al, [])] bob al [] 0
           eq_refl eq_refl eq_refl).
Defined.

(** ** The change-set of a merge *)


Lemma NoDup_keys_al : NoDup (keys al).
Proof. apply (bool_decide_unpack (NoDup (keys al))). vm_compute. exact I. Defined.


(** The change-set of the example run: the three overwritten properties,
    with their previous values. *)
Example change_set_of_bob :
  reconcile numericTime [al; bob] =
  [([("_id", VNum 1); ("email", VStr "b@x.com"); ("entryDate", VNum 200);
     ("name", VStr "Bob")],
    [[("email", VStr "a@x.com"); ("entryDate", VNum 100);
      ("name", VStr "Al")]])].
Proof. reflexivity. Qed.

(** ** Duplicate detection *)



(** Two leads without [_id], with different [id] and [email], end up in
    one record. *)
Example anonymous_leads_are_merged :
  reconcile numericTime [anonymous1; anonymous2] =
  [([("id", VNum 8); ("email", VStr "q@x.com"); ("entryDate", VNum 20);
     ("_id", VUndefined)],
    [[("id", VNum 7); ("email", VStr "p@x.com"); ("entryDate", VNum 10)]])].
Proof. reflexivity. Qed.

(** ** Uniqueness of the identity keys *)

(** C1, as stated, fails: a lead that matches the first record on [_id]
    and carries the [email] of the second record is merged into the first
    one, which adopts that [email]; with the roles of the two keys swapped
    the first record adopts the [_id] of the second. *)
Lemma shared_key_after_merge :
  ~ uniqueKeys (reconcile numericTime [ann; ben; ann_with_bens_email]) /\
  ~ uniqueKeys (reconcile numericTime [ann; ben; ann_with_bens_id]) /\
  (exists r1 r2,
     reconcile numericTime [ann; ben; ann_with_bens_email] = [r1; r2] /\
     get "email" (fst r1) = VStr "b@x.com" /\
     get "email" (fst r2) = VStr "b@x.com").
Proof.
  split; [|split].
  - intros H.
    specialize (H 0%nat 1%nat _ _ eq_refl eq_refl eq_refl). discriminate.
  - intros H.
    specialize (H 0%nat 1%nat _ _ eq_refl eq_refl eq_refl). discriminate.
  - eexists _, _. split; [reflexivity|]. split; reflexivity.
Qed.

Lemma sharesKey_sym (a b : obj) : sharesKey a b = sharesKey b a.
Proof.
  unfold sharesKey.
  now rewrite (strict_eq_sym (get "_id" a)), (strict_eq_sym (get "email" a)).
Qed.

Lemma sharesKey_refl (a : obj) : sharesKey a a = true.
Proof. unfold sharesKey. now rewrite strict_eq_refl. Qed.

Lemma strict_eq_sym_true (a b : value) :
  strict_eq a b = true -> strict_eq b a = true.
Proof. now rewrite strict_eq_sym. Qed.

Lemma sharesKey_id (a b : obj) :
  strict_eq (get "_id" a) (get "_id" b) = true -> sharesKey a b = true.
Proof. intros H. unfold sharesKey. now rewrite H. Qed.

Lemma sharesKey_email (a b : obj) :
  strict_eq (get "email" a) (get "email" b) = true -> sharesKey a b = true.
Proof. intros H. unfold sharesKey. rewrite H. apply orb_true_r. Qed.

Lemma sharesKey_cases (a b : obj) :
  sharesKey a b = true ->
  strict_eq (get "_id" a) (get "_id" b) = true
  \/ strict_eq (get "email" a) (get "email" b) = true.
Proof. unfold sharesKey. now rewrite orb_true_iff. Qed.

(** What a lead shares with the merged object it shares with the record
    or with the incoming lead. *)
Lemma sharesKey_mergeData (x original lead : obj) :
  sharesKey x (mergeData original lead) = true ->
  sharesKey x original = true \/ sharesKey x lead = true.
Proof.
  intros H. apply sharesKey_cases in H as [H|H].
  - rewrite mergeData_id in H.
    destruct (strict_eq (get "_id" original) (get "_id" lead));
      [left | right]; now apply sharesKey_id.
  - rewrite mergeData_email in H.
    destruct (strict_eq (get "email" original) (get "email" lead));
      [left | right]; now apply sharesKey_email.
Qed.

Section UniqueKeys.

Variable getTime : value -> option Z.
Variable leads : list obj.
Hypothesis transitive : sharingIsTransitive leads = true.

Lemma sharing_trans (x y z : obj) :
  x ∈ leads -> y ∈ leads -> z ∈ leads ->
  sharesKey x y = true -> sharesKey y z = true -> sharesKey x z = true.
Proof.
  intros Hx Hy Hz Hxy Hyz. pose proof transitive as H.
  unfold sharingIsTransitive in H. rewrite forallb_forall in H.
  specialize (H x (proj1 (list_elem_of_In _ _) Hx)).
  rewrite forallb_forall in H.
  specialize (H y (proj1 (list_elem_of_In _ _) Hy)).
  rewrite forallb_forall in H.
  specialize (H z (proj1 (list_elem_of_In _ _) Hz)).
  now rewrite Hxy, Hyz in H.
Qed.

(** A lead that matches a record shares a key with both leads the keys of
    the record come from. *)
Lemma matching_lead_shares (data la lb x : obj) :
  la ∈ leads -> lb ∈ leads -> x ∈ leads ->
  strict_eq (get "_id" data) (get "_id" la) = true ->
  strict_eq (get "email" data) (get "email" lb) = true ->
  sharesKey la lb = true ->
  sharesKey x data = true ->
  sharesKey x la = true /\ sharesKey x lb = true.
Proof.
  intros Hla Hlb Hx Hid Hemail Hab Hmatch.
  apply sharesKey_cases in Hmatch as [H|H].
  - assert (Hxa : sharesKey x la = true)
      by (apply sharesKey_id; eapply strict_eq_trans; eassumption).
    split; [exact Hxa|]. exact (sharing_trans x la lb Hx Hla Hlb Hxa Hab).
  - assert (Hxb : sharesKey x lb = true)
      by (apply sharesKey_email; eapply strict_eq_trans; eassumption).
    split; [|exact Hxb]. apply (sharing_trans x lb la Hx Hlb Hla Hxb).
    now rewrite sharesKey_sym.
Qed.

(** Conversely, a lead that shares a key with both of these leads matches
    the record. *)
Lemma sharing_lead_matches (data la lb x : obj) :
  strict_eq (get "_id" data) (get "_id" la) = true ->
  strict_eq (get "email" data) (get "email" lb) = true ->
  sharesKey la lb = true ->
  sharesKey x la = true -> sharesKey x lb = true ->
  sharesKey x data = true.
Proof.
  intros Hid Hemail Hab Hxa Hxb.
  apply strict_eq_sym_true in Hid, Hemail.
  apply sharesKey_cases in Hxa as [Hxa|Hxa];
    [apply sharesKey_id; eapply strict_eq_trans; eassumption|].
  apply sharesKey_cases in Hxb as [Hxb|Hxb];
    [|apply sharesKey_email; eapply strict_eq_trans; eassumption].
  apply sharesKey_cases in Hab as [Hab|Hab].
  - apply sharesKey_id. eapply strict_eq_trans; [exact Hxb|].
    eapply strict_eq_trans; [|exact Hid]. now apply strict_eq_sym_true.
  - apply sharesKey_email. eapply strict_eq_trans; [exact Hxa|].
    eapply strict_eq_trans; [exact Hab | exact Hemail].
Qed.

Lemma apart_gives_unique (records : list record) :
  keysOfLeads leads records -> apartRecords leads records ->
  uniqueKeys records.
Proof.
  intros Hkeys Hapart i j r1 r2 Hi Hj Hs.
  destruct (decide (i = j)) as [E|Hne]; [exact E | exfalso].
  destruct (Hkeys r1 (list_elem_of_lookup_2 _ _ _ Hi))
    as (a1 & b1 & Ha1 & Hb1 & Hid1 & Hemail1 & _).
  destruct (Hkeys r2 (list_elem_of_lookup_2 _ _ _ Hj))
    as (a2 & b2 & Ha2 & Hb2 & Hid2 & Hemail2 & _).
  apply strict_eq_sym_true in Hid1, Hemail1, Hid2, Hemail2.
  apply sharesKey_cases in Hs as [Hs|Hs].
  - pose proof (Hapart i j r1 r2 a1 a2 Hi Hj Hne Ha1 Ha2
                  (sharesKey_id _ _ Hid1) (sharesKey_id _ _ Hid2)) as Hno.
    assert (Hyes : sharesKey a1 a2 = true); [|congruence].
    apply sharesKey_id. eapply strict_eq_trans; [exact Hid1|].
    eapply strict_eq_trans; [exact Hs|]. now apply strict_eq_sym_true.
  - pose proof (Hapart i j r1 r2 b1 b2 Hi Hj Hne Hb1 Hb2
                  (sharesKey_email _ _ Hemail1) (sharesKey_email _ _ Hemail2))
      as Hno.
    assert (Hyes : sharesKey b1 b2 = true); [|congruence].
    apply sharesKey_email. eapply strict_eq_trans; [exact Hemail1|].
    eapply strict_eq_trans; [exact Hs|]. now apply strict_eq_sym_true.
Qed.

Lemma dedupLead_keysOfLeads (records : list record) (lead : obj) :
  lead ∈ leads -> keysOfLeads leads records ->
  keysOfLeads leads (dedupLead getTime records lead).
Proof.
  intros Hlead Hkeys r Hr. unfold dedupLead in Hr.
  destruct (findIndex (sameLead lead) records) as [k|] eqn:Hf.
  - destruct (findIndex_Some _ _ _ Hf) as ([original changes] & Hk & Hp & _).
    rewrite Hk in Hr. destruct (time_ge _ _); [|now apply Hkeys].
    apply list_elem_of_lookup in Hr as [j Hj].
    destruct (decide (k = j)) as [<-|Hne].
    + rewrite list_lookup_insert_eq in Hj by (eapply lookup_lt_Some, Hk).
      injection Hj as <-. simpl.
      destruct (Hkeys _ (list_elem_of_lookup_2 _ _ _ Hk))
        as (la & lb & Hla & Hlb & Hid & Hemail & Hab). simpl in Hid, Hemail.
      assert (Hmatch : sharesKey lead original = true).
      { unfold sameLead in Hp. exact Hp. }
      destruct (matching_lead_shares original la lb lead Hla Hlb Hlead
                  Hid Hemail Hab Hmatch) as [Hxa Hxb].
      rewrite mergeData_id, mergeData_email.
      destruct (strict_eq (get "_id" original) (get "_id" lead));
        destruct (strict_eq (get "email" original) (get "email" lead)).
      * exists la, lb. now repeat split.
      * exists la, lead. repeat split; try assumption;
          [apply strict_eq_refl | now rewrite sharesKey_sym].
      * exists lead, lb. repeat split; try assumption. apply strict_eq_refl.
      * exists lead, lead. repeat split; try assumption;
          try apply strict_eq_refl. apply sharesKey_refl.
    + rewrite list_lookup_insert_ne in Hj by exact Hne.
      apply Hkeys. eapply list_elem_of_lookup_2, Hj.
  - apply elem_of_app in Hr as [Hr|Hr]; [now apply Hkeys|].
    apply list_elem_of_singleton in Hr as ->. simpl.
    exists lead, lead. repeat split; try assumption;
      try apply strict_eq_refl. apply sharesKey_refl.
Qed.

Lemma apartRecords_sym (records : list record) :
  (forall i j ri rj x y,
     records !! i = Some ri -> records !! j = Some rj -> (i < j)%nat ->
     x ∈ leads -> y ∈ leads ->
     sharesKey x (fst ri) = true -> sharesKey y (fst rj) = true ->
     sharesKey x y = false) ->
  apartRecords leads records.
Proof.
  intros H i j ri rj x y Hi Hj Hne Hx Hy Hxi Hyj.
  destruct (Nat.lt_total i j) as [Hlt|[E|Hgt]]; [|congruence|].
  - exact (H i j ri rj x y Hi Hj Hlt Hx Hy Hxi Hyj).
  - rewrite sharesKey_sym. exact (H j i rj ri y x Hj Hi Hgt Hy Hx Hyj Hxi).
Qed.

Lemma dedupLead_apartRecords (records : list record) (lead : obj) :
  lead ∈ leads -> keysOfLeads leads records -> apartRecords leads records ->
  apartRecords leads (dedupLead getTime records lead).
Proof.
  intros Hlead Hkeys Hapart. unfold dedupLead.
  destruct (findIndex (sameLead lead) records) as [k|] eqn:Hf.
  - destruct (findIndex_Some _ _ _ Hf) as ([original changes] & Hk & Hp & _).
    rewrite Hk. destruct (time_ge _ _); [|exact Hapart].
    assert (Hmatch : sharesKey lead original = true) by exact Hp.
    assert (Hlt : (k < length records)%nat) by (eapply lookup_lt_Some, Hk).
    (* a lead that matches the merged record is apart from the leads that
       match another record *)
    assert (Hnew : forall j rj x y,
      records !! j = Some rj -> k <> j -> x ∈ leads -> y ∈ leads ->
      sharesKey x (mergeData original lead) = true ->
      sharesKey y (fst rj) = true -> sharesKey x y = false).
    { intros j rj x y Hj Hne Hx Hy Hxm Hyj.
      apply sharesKey_mergeData in Hxm as [Hxo|Hxl].
      - exact (Hapart k j _ rj x y Hk Hj Hne Hx Hy Hxo Hyj).
      - pose proof (Hapart k j _ rj lead y Hk Hj Hne Hlead Hy Hmatch Hyj)
          as Hno.
        destruct (sharesKey x y) eqn:Hxy; [|reflexivity].
        rewrite <- Hno. symmetry.
        apply (sharing_trans lead x y Hlead Hx Hy); [|exact Hxy].
        now rewrite sharesKey_sym. }
    intros i j ri rj x y Hi Hj Hne Hx Hy Hxi Hyj.
    destruct (decide (k = i)) as [<-|Hki].
    + rewrite list_lookup_insert_eq in Hi by exact Hlt. injection Hi as <-.
      rewrite list_lookup_insert_ne in Hj by exact Hne.
      exact (Hnew j rj x y Hj Hne Hx Hy Hxi Hyj).
    + rewrite list_lookup_insert_ne in Hi by exact Hki.
      destruct (decide (k = j)) as [<-|Hkj].
      * rewrite list_lookup_insert_eq in Hj by exact Hlt. injection Hj as <-.
        rewrite sharesKey_sym.
        exact (Hnew i ri y x Hi Hki Hy Hx Hyj Hxi).
      * rewrite list_lookup_insert_ne in Hj by exact Hkj.
        exact (Hapart i j ri rj x y Hi Hj Hne Hx Hy Hxi Hyj).
  - rewrite findIndex_None in Hf. apply apartRecords_sym.
    intros i j ri rj x y Hi Hj Hlt Hx Hy Hxi Hyj.
    apply lookup_snoc_Some in Hj as [[Hjlt Hj]|[Hjeq <-]].
    + apply lookup_snoc_Some in Hi as [[_ Hi]|[Hieq _]]; [|lia].
      apply (Hapart i j ri rj x y Hi Hj); [lia | assumption..].
    + apply lookup_snoc_Some in Hi as [[_ Hi]|[Hieq _]]; [|lia].
      simpl in Hyj.
      destruct (sharesKey x y) eqn:Hxy; [|reflexivity]. exfalso.
      (* otherwise the new lead would have matched record [i] *)
      pose proof (list_elem_of_lookup_2 _ _ _ Hi) as Hin.
      destruct (Hkeys ri Hin) as (la & lb & Hla & Hlb & Hid & Hemail & Hab).
      destruct (matching_lead_shares (fst ri) la lb x Hla Hlb Hx
                  Hid Hemail Hab Hxi) as [Hxa Hxb].
      assert (Hlx : sharesKey lead x = true).
      { apply (sharing_trans lead y x Hlead Hy Hx);
          now rewrite sharesKey_sym. }
      pose proof (sharing_trans lead x la Hlead Hx Hla Hlx Hxa) as Hlla.
      pose proof (sharing_trans lead x lb Hlead Hx Hlb Hlx Hxb) as Hllb.
      pose proof (sharing_lead_matches (fst ri) la lb lead Hid Hemail Hab
                    Hlla Hllb) as Hmatch.
      specialize (Hf ri Hin). unfold sameLead in Hf.
      unfold sharesKey in Hmatch. congruence.
Qed.

Lemma fold_dedupLead_apart (todo : list obj) (records : list record) :
  (forall lead, lead ∈ todo -> lead ∈ leads) ->
  keysOfLeads leads records /\ apartRecords leads records ->
  keysOfLeads leads (fold_left (dedupLead getTime) todo records)
  /\ apartRecords leads (fold_left (dedupLead getTime) todo records).
Proof.
  revert records. induction todo as [|lead todo IH]; simpl;
    intros records Hsub Hinv; [exact Hinv|].
  assert (Hlead : lead ∈ leads) by (apply Hsub, list_elem_of_here).
  apply IH.
  - intros l Hl. apply Hsub. now apply list_elem_of_further.
  - destruct Hinv as [Hkeys Hapart]. split.
    + now apply dedupLead_keysOfLeads.
    + now apply dedupLead_apartRecords.
Qed.

End UniqueKeys.

(** C1, amended. When sharing an identity key is transitive on the input
    leads, no two records of the result read the same [_id] or the same
    [email]; a merge that matches on one key only is then still safe. *)
Theorem unique_keys_when_sharing_is_transitive (getTime : value -> option Z)
    (leads : list obj) :
  sharingIsTransitive leads = true -> uniqueKeys (reconcile getTime leads).
Proof.
  intros Htrans. unfold reconcile.
  destruct (fold_dedupLead_apart getTime leads Htrans leads []) as [Hk Ha].
  - auto.
  - split.
    + intros r Hr. now apply elem_of_nil in Hr.
    + intros i j ri rj x y Hi. now rewrite lookup_nil in Hi.
  - now apply (apart_gives_unique leads).
Qed.

Lemma unique_keys_when_sharing_is_transitive_witness :
  uniqueKeys (reconcile numericTime [al; anonymous1; bob; stale]).
Proof.
  exact (unique_keys_when_sharing_is_transitive numericTime
           [al; anonymous1; bob; stale] eq_refl).
Defined.

(** The input of the witness has a merge on [_id] alone, which takes the
    incoming [email]. *)
Example single_key_merge_in_transitive_input :
  sharingIsTransitive [al; anonymous1; bob; stale] = true
  /\ map (fun r => get "email" (fst r))
       (reconcile numericTime [al; anonymous1; bob; stale])
     = [VStr "b@x.com"; VStr "p@x.com"]
  /\ sharingIsTransitive [ann; ben; ann_with_bens_email] = false.
Proof. repeat split. Qed.

(** ** The chains of the changelog *)

Lemma append_cons (ch : ascii) (a b : string) :
  String ch a +:+ b = String ch (a +:+ b).
Proof. reflexivity. Qed.

Lemma append_assoc (a b c : string) : (a +:+ b) +:+ c = a +:+ (b +:+ c).
Proof.
  induction a as [|ch a IH]; [reflexivity|].
  now rewrite !append_cons, IH.
Qed.

Lemma append_empty_r (a : string) : a +:+ "" = a.
Proof.
  induction a as [|ch a IH]; [reflexivity|].
  now rewrite append_cons, IH.
Qed.

Lemma joinArrow_snoc (strs : list string) (a b : string) :
  joinArrow (strs ++ [a +:+ " ==> " +:+ b]) = joinArrow (strs ++ [a; b]).
Proof.
  induction strs as [|s strs IH]; [reflexivity|].
  destruct strs as [|s' strs]; [reflexivity|].
  change (s +:+ " ==> " +:+ joinArrow ((s' :: strs) ++ [a +:+ " ==> " +:+ b])
          = s +:+ " ==> " +:+ joinArrow ((s' :: strs) ++ [a; b])).
  now rewrite IH.
Qed.

(** Prepending the recorded values in storage order builds the chain
    oldest first. *)
Lemma prepend_is_chain (olds : list value) (current : string) :
  fold_left (fun s v => toStr v +:+ " ==> " +:+ s) olds current
  = joinArrow (map toStr (rev olds) ++ [current]).
Proof.
  revert current. induction olds as [|v olds IH]; intros current; simpl.
  - reflexivity.
  - rewrite IH, joinArrow_snoc, map_app, <- List.app_assoc. reflexivity.
Qed.

Lemma chainChange_entries (data change : obj) :
  chainChange data change = fold_left chainEntry change data.
Proof.
  unfold chainChange, entries. revert data.
  induction change as [|[k v] change IH]; intros data; simpl;
    [reflexivity | apply IH].
Qed.

Lemma chainChanges_entries (data : obj) (changes : list obj) :
  chainChanges data changes
  = fold_left chainEntry (concat (map entries changes)) data.
Proof.
  unfold chainChanges. revert data.
  induction changes as [|change changes IH]; intros data; simpl.
  - reflexivity.
  - rewrite fold_left_app, IH, chainChange_entries. reflexivity.
Qed.

Lemma fold_chainEntry_other (key : string) (es : list (string * value))
    (data : obj) :
  List.filter (fun kv => String.eqb (fst kv) key) es = [] ->
  get key (fold_left chainEntry es data) = get key data.
Proof.
  revert data. induction es as [|[k v] es IH]; intros data; simpl.
  - reflexivity.
  - destruct (String.eqb_spec k key) as [->|Hne]; [discriminate|].
    intros Hnone. rewrite (IH _ Hnone). unfold chainEntry. simpl.
    now apply get_put_ne.
Qed.

Lemma fold_chainEntry_get (key : string) (es : list (string * value))
    (data : obj) :
  List.filter (fun kv => String.eqb (fst kv) key) es <> [] ->
  get key (fold_left chainEntry es data)
  = VStr (fold_left (fun s v => toStr v +:+ " ==> " +:+ s)
            (map snd (List.filter (fun kv => String.eqb (fst kv) key) es))
            (toStr (get key data))).
Proof.
  revert data. induction es as [|[k v] es IH]; intros data; simpl.
  - congruence.
  - destruct (String.eqb_spec k key) as [->|Hne]; simpl.
    + intros _. pose proof (IH (chainEntry data (key, v))) as IH'.
      pose proof (fold_chainEntry_other key es (chainEntry data (key, v)))
        as Hother.
      destruct (List.filter (fun kv => String.eqb (fst kv) key) es)
        as [|e rest].
      * rewrite Hother by reflexivity. unfold chainEntry. simpl.
        apply get_put_eq.
      * rewrite IH' by discriminate.
        unfold chainEntry. simpl. now rewrite get_put_eq.
    + intros Hsome. rewrite (IH _ Hsome). unfold chainEntry. simpl.
      now rewrite (get_put_ne _ _ _ _ Hne).
Qed.

Lemma filter_key_absent (key : string) (change : obj) :
  own key change = None ->
  List.filter (fun kv => String.eqb (fst kv) key) change = [].
Proof.
  induction change as [|[k v] change IH]; simpl; [reflexivity|].
  destruct (String.eqb k key); [discriminate | exact IH].
Qed.

(** A change-set, being an object, holds at most one value for [key]: the
    history lists, change-set by change-set, the value each one holds. *)
Lemma history_cons (key : string) (change : obj) (changes : list obj) :
  NoDup (keys change) ->
  history key (change :: changes) =
  match own key change with
  | Some val => val :: history key changes
  | None => history key changes
  end.
Proof.
  intros Hnd. unfold history. simpl. unfold entries at 1.
  rewrite List.filter_app, map_app.
  assert (Hone : map snd
            (List.filter (fun kv => String.eqb (fst kv) key) change)
          = match own key change with Some val => [val] | None => [] end).
  { induction change as [|[k v] change IH]; simpl in Hnd |- *;
      [reflexivity|].
    apply NoDup_cons in Hnd as [Hk Hnd].
    destruct (String.eqb_spec k key) as [->|Hne]; simpl.
    - apply own_None_keys in Hk. now rewrite (filter_key_absent _ _ Hk).
    - now apply IH. }
  rewrite Hone. now destruct (own key change).
Qed.

Lemma history_nonempty (key : string) (changes : list obj) (change : obj) :
  change ∈ changes -> has key change = true -> history key changes <> [].
Proof.
  intros Hin Hhas. unfold history.
  rewrite has_own in Hhas. destruct (own key change) as [v|] eqn:E;
    [|discriminate].
  apply own_elem_of, list_elem_of_In in E.
  assert (Hc : In (key, v) (concat (map entries changes))).
  { apply in_concat. exists change. split; [|exact E].
    apply in_map_iff. exists change. split; [reflexivity|].
    now apply list_elem_of_In. }
  assert (Hf : In (key, v)
                 (List.filter (fun kv => String.eqb (fst kv) key)
                    (concat (map entries changes)))).
  { apply filter_In. split; [exact Hc | apply String.eqb_refl]. }
  intros Hnil. apply map_eq_nil in Hnil. rewrite Hnil in Hf. exact Hf.
Qed.

(** The value [data[key]] holds after [changes.forEach(...)]. *)
Lemma get_chainChanges (key : string) (data : obj) (changes : list obj) :
  history key changes <> [] ->
  get key (chainChanges data changes) = VStr (chainOf key data changes).
Proof.
  intros Hh. unfold chainOf, history in *.
  rewrite chainChanges_entries, fold_chainEntry_get.
  - now rewrite prepend_is_chain.
  - intros Hnil. apply Hh. now rewrite Hnil.
Qed.

Lemma get_chainChanges_plain (key : string) (data : obj) (changes : list obj) :
  history key changes = [] ->
  get key (chainChanges data changes) = get key data.
Proof.
  intros Hh. rewrite chainChanges_entries. apply fold_chainEntry_other.
  unfold history in Hh. now apply map_eq_nil in Hh.
Qed.

(** ** The padding width *)

Lemma elem_of_insertSorted (cmp : string -> string -> Z) (x y : string)
    (l : list string) :
  y ∈ insertSorted cmp x l <-> y = x \/ y ∈ l.
Proof.
  induction l as [|z l IH]; simpl.
  - rewrite list_elem_of_singleton, elem_of_nil. tauto.
  - destruct (0 <? cmp x z).
    + rewrite !elem_of_cons, IH. tauto.
    + rewrite !elem_of_cons. tauto.
Qed.

Lemma elem_of_sort_from (cmp : string -> string -> Z) (y : string)
    (l sorted : list string) :
  y ∈ fold_left (fun sorted x => insertSorted cmp x sorted) l sorted
  <-> y ∈ l \/ y ∈ sorted.
Proof.
  revert sorted. induction l as [|x l IH]; intros sorted; simpl.
  - rewrite elem_of_nil. tauto.
  - rewrite IH, elem_of_insertSorted, elem_of_cons. tauto.
Qed.

Lemma elem_of_sort (cmp : string -> string -> Z) (y : string)
    (l : list string) :
  y ∈ sort cmp l <-> y ∈ l.
Proof. unfold sort. rewrite elem_of_sort_from, elem_of_nil. tauto. Qed.

Lemma longestFirst_insertSorted (x : string) (l : list string) :
  longestFirst l -> longestFirst (insertSorted byLength x l).
Proof.
  destruct l as [|h t]; simpl.
  - intros _ y Hy. now apply elem_of_nil in Hy.
  - intros Hh. unfold byLength.
    destruct (String.length x <? String.length h)%nat eqn:E; simpl.
    + apply Nat.ltb_lt in E. intros y Hy.
      apply elem_of_insertSorted in Hy as [->|Hy]; [lia | now apply Hh].
    + apply Nat.ltb_ge in E. intros y Hy.
      apply elem_of_cons in Hy as [->|Hy]; [lia|].
      specialize (Hh y Hy). lia.
Qed.

Lemma longestFirst_sort_from (l sorted : list string) :
  longestFirst sorted ->
  longestFirst
    (fold_left (fun sorted x => insertSorted byLength x sorted) l sorted).
Proof.
  revert sorted. induction l as [|x l IH]; intros sorted Hs; simpl.
  - exact Hs.
  - apply IH. now apply longestFirst_insertSorted.
Qed.

(** Whatever order the sort leaves equal lengths in, its first element has
    the greatest length. *)
Lemma sort_byLength_head (l : list string) (h : string) (t : list string) :
  sort byLength l = h :: t ->
  h ∈ l /\ forall y, y ∈ l -> (String.length y <= String.length h)%nat.
Proof.
  intros Hs. split.
  - apply (elem_of_sort byLength). rewrite Hs. apply list_elem_of_here.
  - intros y Hy. apply (elem_of_sort byLength) in Hy. rewrite Hs in Hy.
    pose proof (longestFirst_sort_from l [] I) as Hl.
    fold (sort byLength l) in Hl. rewrite Hs in Hl. simpl in Hl.
    apply elem_of_cons in Hy as [->|Hy]; [lia | now apply Hl].
Qed.

Lemma sort_nil_inv (cmp : string -> string -> Z) (l : list string) :
  sort cmp l = [] -> l = [].
Proof.
  destruct l as [|x l]; [reflexivity|]. intros Hs. exfalso.
  assert (Hx : x ∈ sort cmp (x :: l))
    by (apply elem_of_sort, list_elem_of_here).
  rewrite Hs in Hx. now apply elem_of_nil in Hx.
Qed.

(** The width is the greatest length of a property name; it is not
    defined for an object without properties. *)
Lemma longestPropLength_spec (data : obj) :
  match longestPropLength data with
  | TypeError => data = []
  | Returned n =>
      (exists key, key ∈ keys data /\ String.length key = n) /\
      (forall key, key ∈ keys data -> (String.length key <= n)%nat)
  end.
Proof.
  unfold longestPropLength.
  destruct (sort byLength (keys data)) as [|h t] eqn:Hs.
  - apply sort_nil_inv in Hs. now destruct data.
  - destruct (sort_byLength_head _ _ _ Hs) as [Hh Hmax].
    split; [now exists h | exact Hmax].
Qed.

Lemma longestPropLength_nonempty (data : obj) :
  data <> [] -> exists n, longestPropLength data = Returned n.
Proof.
  intros Hne. pose proof (longestPropLength_spec data) as H.
  destruct (longestPropLength data) as [n|]; [now exists n | contradiction].
Qed.

(** ** The shape of the log *)

Lemma put_nonempty (key : string) (val : value) (o : obj) :
  put key val o <> [].
Proof.
  intros Hnil. pose proof (own_put key key val o) as H.
  rewrite Hnil, String.eqb_refl in H. discriminate.
Qed.

Lemma fold_chainEntry_nonempty (es : list (string * value)) (data : obj) :
  data <> [] -> fold_left chainEntry es data <> [].
Proof.
  revert data. induction es as [|kv es IH]; intros data Hne; simpl.
  - exact Hne.
  - apply IH. apply put_nonempty.
Qed.

Lemma chainChanges_nonempty (data : obj) (changes : list obj) :
  data <> [] -> chainChanges data changes <> [].
Proof.
  intros Hne. rewrite chainChanges_entries.
  now apply fold_chainEntry_nonempty.
Qed.

Lemma occursIn_prefix (piece whole pre : string) :
  occursIn piece whole -> occursIn piece (pre +:+ whole).
Proof.
  intros (a & b & ->). exists (pre +:+ a), b. now rewrite append_assoc.
Qed.

Lemma occursIn_suffix (piece whole post : string) :
  occursIn piece whole -> occursIn piece (whole +:+ post).
Proof.
  intros (a & b & ->). exists a, (b +:+ post). now rewrite !append_assoc.
Qed.

Lemma logLines_cons (n : nat) (key : string) (val : value) (data : obj)
    (fullLog : string) :
  logLines n ((key, val) :: data) fullLog
  = logLines n data (fullLog +:+ logLine n key val).
Proof. reflexivity. Qed.

Lemma logLines_from (n : nat) (data : obj) (fullLog : string) :
  logLines n data fullLog = fullLog +:+ logLines n data "".
Proof.
  revert fullLog. induction data as [|[k v] data IH]; intros fullLog.
  - unfold logLines. simpl. now rewrite append_empty_r.
  - rewrite !logLines_cons, IH, (IH ("" +:+ logLine n k v)), append_assoc.
    reflexivity.
Qed.

Lemma logLines_shows (n : nat) (data : obj) (key : string) (val : value) :
  (key, val) ∈ data -> occursIn (logLine n key val) (logLines n data "").
Proof.
  induction data as [|[k v] data IH]; intros Hin.
  - now apply elem_of_nil in Hin.
  - rewrite logLines_cons, logLines_from.
    apply elem_of_cons in Hin as [E|Hin].
    + injection E as <- <-. exists "", (logLines n data "").
      reflexivity.
    + apply occursIn_prefix. now apply IH.
Qed.

Lemma logRecords_returns (records : list record) (index : nat)
    (fullLog : string) :
  (forall r, r ∈ records -> fst r <> []) ->
  exists rest records',
    logRecords index records fullLog = Returned (fullLog +:+ rest, records').
Proof.
  revert index fullLog.
  induction records as [|[data changes] records IH];
    intros index fullLog Hne; simpl.
  - exists "", []. now rewrite append_empty_r.
  - destruct (longestPropLength_nonempty (chainChanges data changes))
      as [n ->].
    { apply chainChanges_nonempty, (Hne (data, changes)), list_elem_of_here. }
    rewrite logLines_from.
    set (shown := logLines n (chainChanges data changes) "").
    destruct (IH (S index)
                (match index with O => fullLog | S _ => fullLog +:+ newline end
                 +:+ shown)) as (rest & records' & ->).
    { intros r Hr. apply Hne. now apply list_elem_of_further. }
    destruct index; eexists _, _; rewrite !append_assoc; reflexivity.
Qed.

Lemma logRecords_shows (before after : list record) (data : obj)
    (changes : list obj) (index n : nat) (fullLog key : string) (val : value) :
  (forall r, r ∈ before ++ after -> fst r <> []) ->
  longestPropLength (chainChanges data changes) = Returned n ->
  (key, val) ∈ chainChanges data changes ->
  exists log records',
    logRecords index (before ++ (data, changes) :: after) fullLog
      = Returned (log, records')
    /\ occursIn (logLine n key val) log.
Proof.
  revert index fullLog.
  induction before as [|[data0 changes0] before IH];
    intros index fullLog Hne Hn Hin; simpl.
  - rewrite Hn, logLines_from.
    destruct (logRecords_returns after (S index)
                (match index with O => fullLog | S _ => fullLog +:+ newline end
                 +:+ logLines n (chainChanges data changes) ""))
      as (rest & records' & ->).
    { intros r Hr. now apply Hne. }
    eexists _, _. split; [reflexivity|].
    apply occursIn_suffix, occursIn_prefix. now apply logLines_shows.
  - destruct (longestPropLength_nonempty (chainChanges data0 changes0))
      as [n0 ->].
    { apply chainChanges_nonempty, (Hne (data0, changes0)), list_elem_of_here. }
    destruct (IH (S index)
                (logLines n0 (chainChanges data0 changes0)
                   (match index with O => fullLog | S _ => fullLog +:+ newline
                    end)))
      as (log & records' & -> & Hocc); [|exact Hn | exact Hin |].
    { intros r Hr. apply Hne. now apply list_elem_of_further. }
    eexists _, _. split; [reflexivity | exact Hocc].
Qed.

(** C6 does not hold of the code when some record has no property. Of the
    leads [{}], [al] and [bob] the first is stored as a record and [bob] is
    merged into the record of [al], whose change-set holds [name]; the
    loop over the change-sets would give [name] the chain [Al ==> Bob],
    but rendering starts with the record of [{}] and throws there: no
    report is produced and the chain is shown nowhere. *)
Theorem chain_is_not_shown_beside_an_empty_record :
  reconcile numericTime [[]; al; bob]
  = [([], []); (mergeData al bob, [changedProps al (mergeData al bob)])]
  /\ own "name" (changedProps al (mergeData al bob)) = Some (VStr "Al")
  /\ get "name"
       (chainChanges (mergeData al bob) [changedProps al (mergeData al bob)])
     = VStr "Al ==> Bob"
  /\ writeLog (reconcile numericTime [[]; al; bob]) = TypeError.
Proof. repeat split. Qed.

(** A chain over two change-sets, and the report of the example run. *)
Example chain_of_name :
  chainOf "name" bob [[("name", VStr "Al")]; [("name", VStr "A")]]
  = "A ==> Al ==> Bob".
Proof. reflexivity. Qed.

Example report_of_example_run :
  writeLog (reconcile numericTime [al; ben; bob; stale]) =
  Returned
    ("      _id: 1" +:+ newline +:+
     "    email: a@x.com ==> b@x.com" +:+ newline +:+
     "entryDate: 100 ==> 200" +:+ newline +:+
     "     name: Al ==> Bob" +:+ newline +:+
     newline +:+
     "      _id: 2" +:+ newline +:+
     "    email: b@x.com" +:+ newline +:+
     "entryDate: 100" +:+ newline,
     [([("_id", VNum 1); ("email", VStr "a@x.com ==> b@x.com");
        ("entryDate", VStr "100 ==> 200"); ("name", VStr "Al ==> Bob")],
       [[("email", VStr "a@x.com"); ("entryDate", VNum 100);
         ("name", VStr "Al")]]);
      (ben, [])]).
Proof. vm_compute. reflexivity. Qed.

(** ** What rendering does to [records] *)

Lemma logRecords_state (records records' : list record) (index : nat)
    (fullLog log : string) :
  logRecords index records fullLog = Returned (log, records') ->
  records' = afterWriteLog records.
Proof.
  revert records' index fullLog log.
  induction records as [|[data changes] records IH];
    intros records' index fullLog log; simpl.
  - now intros [= _ <-].
  - destruct (longestPropLength (chainChanges data changes)) as [n|];
      [|discriminate].
    destruct (logRecords (S index) records _) as [[log' rest']|] eqn:E;
      [|discriminate].
    intros [= _ <-]. now rewrite (IH _ _ _ _ E).
Qed.

Lemma lookup_map {A B : Type} (f : A -> B) (l : list A) (i : nat) :
  map f l !! i = option_map f (l !! i).
Proof.
  revert i. induction l as [|x l IH]; intros [|i]; simpl; try reflexivity.
  apply IH.
Qed.

(** A record whose change-sets are all empty is rendered as it is. *)
Lemma chainChanges_no_change (data : obj) (changes : list obj) :
  (forall change, change ∈ changes -> change = []) ->
  chainChanges data changes = data.
Proof.
  unfold chainChanges. revert data.
  induction changes as [|change changes IH]; intros data Hempty; simpl.
  - reflexivity.
  - rewrite (Hempty change (list_elem_of_here _ _)). simpl. apply IH.
    intros c Hc. apply Hempty. now apply list_elem_of_further.
Qed.

Lemma afterWriteLog_no_change (records : list record) :
  (forall r change, r ∈ records -> change ∈ snd r -> change = []) ->
  afterWriteLog records = records.
Proof.
  induction records as [|[data changes] records IH]; intros Hempty; simpl.
  - reflexivity.
  - rewrite IH.
    + rewrite chainChanges_no_change; [reflexivity|].
      intros change Hc. apply (Hempty (data, changes));
        [apply list_elem_of_here | exact Hc].
    + intros r change Hr. apply Hempty. now apply list_elem_of_further.
Qed.

(** C7, as stated, fails: rendering the records of the example run
    replaces the values of the changed properties by their chains, and a
    second rendering of the same records gives another report. *)
Lemma rendering_rewrites_data :
  exists log1 log2 records1 records2,
    writeLog (reconcile numericTime [al; bob]) = Returned (log1, records1)
    /\ writeLog records1 = Returned (log2, records2)
    /\ log1 <> log2
    /\ recordsWithoutChanges records1
       <> recordsWithoutChanges (reconcile numericTime [al; bob])
    /\ get "name" (fst (List.hd ([], []) records1)) = VStr "Al ==> Bob"
    /\ get "name" (fst (List.hd ([], []) records2))
       = VStr "Al ==> Al ==> Bob".
Proof.
  eexists _, _, _, _.
  split; [vm_compute; reflexivity|].
  split; [vm_compute; reflexivity|].
  split; [discriminate|].
  split; [discriminate|].
  split; reflexivity.
Qed.

(** C7, amended. The report and the state rendering leaves are determined
    by the records given: every change-set sequence is kept; in the data
    object a property without recorded change reads as before and a
    property with recorded changes reads its chain. When all change-sets
    are empty the records are left as they were and rendering them again
    gives the identical report. *)
Theorem rendering_is_deterministic_and_writes_chains
    (records records' : list record) (log : string) :
  writeLog records = Returned (log, records') ->
  records' = afterWriteLog records
  /\ map snd records' = map snd records
  /\ (forall i data changes,
        records !! i = Some (data, changes) ->
        exists data',
          records' !! i = Some (data', changes)
          /\ (forall key, history key changes = [] ->
                get key data' = get key data)
          /\ (forall key, history key changes <> [] ->
                get key data' = VStr (chainOf key data changes)))
  /\ ((forall r change, r ∈ records -> change ∈ snd r -> change = []) ->
      records' = records /\ writeLog records' = Returned (log, records')).
Proof.
  intros Hw. pose proof (logRecords_state _ _ _ _ _ Hw) as ->.
  split; [reflexivity|]. split; [|split].
  - unfold afterWriteLog. rewrite map_map. simpl. reflexivity.
  - intros i data changes Hi. exists (chainChanges data changes). split.
    + unfold afterWriteLog. rewrite lookup_map, Hi. reflexivity.
    + split; intros key Hh;
        [now apply get_chainChanges_plain | now apply get_chainChanges].
  - intros Hempty. rewrite (afterWriteLog_no_change _ Hempty) in Hw |- *.
    now split.
Qed.

Lemma rendering_is_deterministic_and_writes_chains_witness :
  exists log records',
    writeLog (reconcile numericTime [al; bob]) = Returned (log, records')
    /\ records' = afterWriteLog (reconcile numericTime [al; bob])
    /\ map snd records' = map snd (reconcile numericTime [al; bob]).
Proof.
  eexists _, _. split; [vm_compute; reflexivity|].
  split;
    apply (rendering_is_deterministic_and_writes_chains
             (reconcile numericTime [al; bob]) _ _ eq_refl).
Defined.

(** ** A record without properties *)

Lemma logRecords_throws (before after : list record) (changes : list obj)
    (index : nat) (fullLog : string) :
  (forall change, change ∈ changes -> change = []) ->
  logRecords index (before ++ ([], changes) :: after) fullLog = TypeError.
Proof.
  intros Hempty. revert index fullLog.
  induction before as [|[data0 changes0] before IH]; intros index fullLog;
    simpl.
  - now rewrite (chainChanges_no_change [] changes Hempty).
  - destruct (longestPropLength (chainChanges data0 changes0));
      [|reflexivity].
    now rewrite IH.
Qed.

(** C8 does not hold of the code. The lead [{}] matches no record of an
    empty [records] and is stored as it is; for its record
    [getOwnPropertyNames(data).sort(...)] is empty, reading [length] of
    its first element throws, and no report is produced, wherever the
    record stands among the others. *)
Theorem empty_record_is_not_rendered (getTime : value -> option Z)
    (before after : list record) :
  reconcile getTime [[]] = [([], [])]
  /\ longestPropLength [] = TypeError
  /\ writeLog (reconcile getTime [[]]) = TypeError
  /\ writeLog (before ++ ([], []) :: after) = TypeError.
Proof.
  repeat split. apply logRecords_throws.
  intros change Hc. now apply elem_of_nil in Hc.
Qed.

(** ** Walking the change-sets back *)

Lemma keys_overwrite (key : string) (val : value) (o : obj) :
  keys (overwrite key val o) = keys o.
Proof.
  induction o as [|[k v] o IH]; simpl; [reflexivity|].
  destruct (String.eqb k key); simpl; [reflexivity | now rewrite IH].
Qed.

Lemma elem_of_keys_insertIndex (n : N) (key x : string) (val : value)
    (o : obj) :
  x ∈ keys (insertIndex n key val o) <-> x = key \/ x ∈ keys o.
Proof.
  induction o as [|[k v] o IH]; simpl.
  - rewrite list_elem_of_singleton, elem_of_nil. tauto.
  - destruct (arrayIndex k) as [m|]; [destruct (m <? n)%N|]; simpl;
      rewrite !elem_of_cons; try rewrite IH; simpl; tauto.
Qed.

Lemma NoDup_keys_insertIndex (n : N) (key : string) (val : value) (o : obj) :
  key ∉ keys o -> NoDup (keys o) -> NoDup (keys (insertIndex n key val o)).
Proof.
  induction o as [|[k v] o IH]; simpl; intros Hnot Hnd.
  - apply NoDup_singleton.
  - apply not_elem_of_cons in Hnot as [Hne Hnot].
    pose proof Hnd as Hnd0. apply NoDup_cons in Hnd as [Hk Hnd].
    assert (Hfront : NoDup (key :: k :: keys o)).
    { apply NoDup_cons. split; [|exact Hnd0].
      rewrite not_elem_of_cons. now split. }
    destruct (arrayIndex k) as [m|]; [destruct (m <? n)%N|]; simpl;
      try exact Hfront.
    apply NoDup_cons. split; [|now apply IH].
    rewrite elem_of_keys_insertIndex. intros [E|E]; [congruence | tauto].
Qed.

Lemma NoDup_keys_put (key : string) (val : value) (o : obj) :
  NoDup (keys o) -> NoDup (keys (put key val o)).
Proof.
  intros Hnd. unfold put. rewrite has_own.
  destruct (own key o) as [v|] eqn:E.
  - now rewrite keys_overwrite.
  - apply own_None_keys in E. unfold define.
    destruct (arrayIndex key) as [n|].
    + now apply NoDup_keys_insertIndex.
    + unfold keys. rewrite map_app. simpl. apply NoDup_app.
      split; [exact Hnd|]. split; [|apply NoDup_singleton].
      intros x Hx Hx'. apply list_elem_of_singleton in Hx' as ->.
      contradiction.
Qed.

Lemma NoDup_keys_changedProps (original newData : obj) :
  NoDup (keys (changedProps original newData)).
Proof.
  unfold changedProps, entries.
  assert (H : forall changed0 : obj, NoDup (keys changed0) ->
    NoDup (keys (fold_left
      (fun changed '(key, val) =>
         if negb (strict_eq (get key newData) val) then put key val changed
         else changed) original changed0))).
  { induction original as [|[k v] original IH]; intros changed0 Hnd; simpl.
    - exact Hnd.
    - apply IH. destruct (negb (strict_eq (get k newData) v));
        [now apply NoDup_keys_put | exact Hnd]. }
  apply H. apply NoDup_nil_2.
Qed.








Section Restore.

Variable getTime : value -> option Z.





End Restore.




(** On the example run the records were created from the first two leads,
    and the walk gives these leads back. *)
Example created_of_example_run :
  createdFrom numericTime [al; ben; bob; stale] = [al; ben].
Proof. reflexivity. Qed.

Example restore_of_example_run :
  map (fun r => restore (fst r) (snd r))
    (reconcile numericTime [al; ben; bob; stale])
  = [al; ben].
Proof. reflexivity. Qed.

(** * Further properties of the deduplication loop *)

(** ** Leads that share no key *)

Lemma sameLead_sharesKey (lead : obj) (r : record) :
  sameLead lead r = sharesKey (fst r) lead.
Proof. unfold sameLead. now rewrite sharesKey_sym. Qed.

Lemma lookup_newRecords (leads : list obj) (i : nat) (r : record) :
  map newRecord leads !! i = Some r ->
  exists lead, leads !! i = Some lead /\ r = newRecord lead.
Proof.
  rewrite lookup_map. destruct (leads !! i) as [lead|]; simpl;
    [|discriminate].
  intros [= <-]. now exists lead.
Qed.

Section PassThrough.

Variable getTime : value -> option Z.

Lemma fold_dedupLead_distinct (todo done : list obj) :
  uniqueKeys (map newRecord (done ++ todo)) ->
  fold_left (dedupLead getTime) todo (map newRecord done)
  = map newRecord (done ++ todo).
Proof.
  revert done. induction todo as [|lead todo IH]; intros done Hu; simpl.
  - now rewrite app_nil_r.
  - assert (Hnone : findIndex (sameLead lead) (map newRecord done) = None).
    { apply findIndex_None. intros r Hr.
      apply list_elem_of_lookup in Hr as [i Hi].
      destruct (sameLead lead r) eqn:Hs; [|reflexivity]. exfalso.
      pose proof (lookup_lt_Some _ _ _ Hi) as Hlt.
      rewrite length_map in Hlt.
      assert (Hi' : map newRecord (done ++ lead :: todo) !! i = Some r).
      { rewrite map_app. now apply lookup_app_l_Some. }
      assert (Hj : map newRecord (done ++ lead :: todo) !! length done
                   = Some (newRecord lead)).
      { rewrite lookup_map, list_lookup_middle; reflexivity. }
      rewrite sameLead_sharesKey in Hs.
      pose proof (Hu i (length done) r (newRecord lead) Hi' Hj Hs). lia. }
    rewrite (dedupLead_new getTime _ _ Hnone).
    change [(lead, [])] with (map newRecord [lead]).
    rewrite <- map_app, IH; rewrite <- List.app_assoc; [reflexivity|].
    exact Hu.
Qed.

Lemma reconcile_newRecords (leads : list obj) :
  uniqueKeys (map newRecord leads) ->
  reconcile getTime leads = map newRecord leads.
Proof. intros Hu. apply (fold_dedupLead_distinct leads []). exact Hu. Qed.

End PassThrough.

(** X1. Leads of which no two read the same [_id] or the same [email] are
    stored one record each, in their order, with no change-set; the data
    written out is then the list of leads itself. *)
Theorem distinct_leads_pass_through (getTime : value -> option Z)
    (leads : list obj) :
  uniqueKeys (map newRecord leads) ->
  reconcile getTime leads = map newRecord leads
  /\ recordsWithoutChanges (reconcile getTime leads) = leads.
Proof.
  intros Hu. rewrite (reconcile_newRecords getTime leads Hu).
  split; [reflexivity|]. unfold recordsWithoutChanges.
  rewrite map_map. simpl. apply map_id.
Qed.

Lemma uniqueKeys_ann_ben : uniqueKeys (map newRecord [ann; ben]).
Proof.
  intros i j r1 r2 Hi Hj.
  destruct i as [|[|i]]; destruct j as [|[|j]]; simpl in Hi, Hj;
    try discriminate; try reflexivity;
    injection Hi as <-; injection Hj as <-; discriminate.
Defined.

Lemma distinct_leads_pass_through_witness :
  reconcile numericTime [ann; ben] = map newRecord [ann; ben]
  /\ recordsWithoutChanges (reconcile numericTime [ann; ben]) = [ann; ben].
Proof.
  exact (distinct_leads_pass_through numericTime [ann; ben]
           uniqueKeys_ann_ben).
Defined.

(** X2. Running the loop again on the data objects of records with unique keys
    gives every data object back, as a record without change-sets: the
    deduplicated output is a fixed point. *)
Theorem reconcile_again_is_identity (getTime : value -> option Z)
    (records : list record) :
  uniqueKeys records ->
  recordsWithoutChanges
    (reconcile getTime (recordsWithoutChanges records))
  = recordsWithoutChanges records.
Proof.
  intros Hu. unfold recordsWithoutChanges.
  rewrite reconcile_newRecords.
  - rewrite map_map. simpl. now rewrite map_id.
  - intros i j r1 r2 Hi Hj Hs.
    apply lookup_newRecords in Hi as (d1 & Hd1 & ->).
    apply lookup_newRecords in Hj as (d2 & Hd2 & ->).
    rewrite lookup_map in Hd1, Hd2.
    destruct (records !! i) as [x1|] eqn:E1; [|discriminate].
    destruct (records !! j) as [x2|] eqn:E2; [|discriminate].
    injection Hd1 as <-. injection Hd2 as <-.
    exact (Hu i j x1 x2 E1 E2 Hs).
Qed.

Lemma uniqueKeys_ann_run :
  uniqueKeys (reconcile numericTime [ann; ben; ann_later]).
Proof.
  intros i j r1 r2 Hi Hj.
  destruct i as [|[|i]]; destruct j as [|[|j]]; simpl in Hi, Hj;
    try discriminate; try reflexivity;
    injection Hi as <-; injection Hj as <-; discriminate.
Defined.

Lemma reconcile_again_is_identity_witness :
  recordsWithoutChanges
    (reconcile numericTime
       (recordsWithoutChanges (reconcile numericTime [ann; ben; ann_later])))
  = recordsWithoutChanges (reconcile numericTime [ann; ben; ann_later]).
Proof.
  exact (reconcile_again_is_identity numericTime
           (reconcile numericTime [ann; ben; ann_later])
           uniqueKeys_ann_run).
Defined.

(** ** What one lead does to a given record *)

Section Run.

Variable getTime : value -> option Z.

(** The record at an index is either left as it is or merged with the
    lead. *)
Lemma dedupLead_lookup (records : list record) (lead data : obj)
    (changes : list obj) (i : nat) :
  records !! i = Some (data, changes) ->
  dedupLead getTime records lead !! i = Some (data, changes)
  \/ (findIndex (sameLead lead) records = Some i
      /\ time_ge (getTime (get "entryDate" lead))
           (getTime (get "entryDate" data)) = true
      /\ dedupLead getTime records lead !! i
         = Some (mergeData data lead,
                 changedProps data (mergeData data lead) :: changes)).
Proof.
  intros Hi. unfold dedupLead.
  destruct (findIndex (sameLead lead) records) as [k|] eqn:Hf.
  - destruct (records !! k) as [[original changes0]|] eqn:Hk; [|now left].
    destruct (time_ge _ _) eqn:Ht; [|now left].
    destruct (decide (k = i)) as [->|Hne].
    + rewrite Hi in Hk. injection Hk as <- <-. right.
      split; [reflexivity|]. split; [exact Ht|].
      apply list_lookup_insert_eq. eapply lookup_lt_Some, Hi.
    + left. now rewrite list_lookup_insert_ne.
  - left. now apply lookup_app_l_Some.
Qed.

Lemma dedupLead_length_bounds (records : list record) (lead : obj) :
  (length records <= length (dedupLead getTime records lead)
   <= S (length records))%nat.
Proof.
  unfold dedupLead.
  destruct (findIndex (sameLead lead) records) as [k|].
  - destruct (records !! k) as [[original changes]|]; [|lia].
    destruct (time_ge _ _); [rewrite length_insert|]; lia.
  - rewrite length_app. simpl. lia.
Qed.

Lemma changeSetCount_app (records more : list record) :
  changeSetCount (records ++ more)
  = (changeSetCount records + changeSetCount more)%nat.
Proof.
  induction records as [|r records IH]; simpl; [reflexivity|].
  rewrite IH. lia.
Qed.

Lemma changeSetCount_insert (records : list record) (i : nat)
    (data data' : obj) (changed : obj) (changes : list obj) :
  records !! i = Some (data, changes) ->
  changeSetCount (<[i := (data', changed :: changes)]> records)
  = S (changeSetCount records).
Proof.
  revert i. induction records as [|r records IH]; intros [|i]; simpl;
    try discriminate.
  - intros [= ->]. simpl. lia.
  - intros Hi. rewrite (IH _ Hi). lia.
Qed.

(** Every lead adds at most one record or one change-set. *)
Lemma dedupLead_count (records : list record) (lead : obj) :
  (length (dedupLead getTime records lead)
   + changeSetCount (dedupLead getTime records lead)
   <= S (length records + changeSetCount records))%nat.
Proof.
  unfold dedupLead.
  destruct (findIndex (sameLead lead) records) as [k|].
  - destruct (records !! k) as [[original changes]|] eqn:Hk; [|lia].
    destruct (time_ge _ _); [|lia].
    rewrite length_insert, (changeSetCount_insert _ _ _ _ _ _ Hk). lia.
  - rewrite length_app, changeSetCount_app. simpl. lia.
Qed.

Lemma fold_dedupLead_count (leads : list obj) (records : list record) :
  (length (fold_left (dedupLead getTime) leads records)
   + changeSetCount (fold_left (dedupLead getTime) leads records)
   <= length leads + (length records + changeSetCount records))%nat.
Proof.
  revert records. induction leads as [|lead leads IH]; intros records; simpl.
  - lia.
  - pose proof (IH (dedupLead getTime records lead)) as H.
    pose proof (dedupLead_count records lead). lia.
Qed.

Lemma fold_dedupLead_length (leads : list obj) (records : list record) :
  (length records <= length (fold_left (dedupLead getTime) leads records))%nat.
Proof.
  revert records. induction leads as [|lead leads IH]; intros records; simpl.
  - lia.
  - pose proof (IH (dedupLead getTime records lead)) as H.
    pose proof (dedupLead_length_bounds records lead). lia.
Qed.

(** Over any number of leads a record keeps its index and its change-sets,
    newer ones being put in front. *)
Lemma fold_dedupLead_history (leads : list obj) (records : list record)
    (i : nat) (data : obj) (changes : list obj) :
  records !! i = Some (data, changes) ->
  exists data' newer,
    fold_left (dedupLead getTime) leads records !! i
    = Some (data', newer ++ changes)
    /\ (length newer <= length leads)%nat.
Proof.
  revert records data changes.
  induction leads as [|lead leads IH]; intros records data changes Hi; simpl.
  - exists data, []. split; [exact Hi | simpl; lia].
  - destruct (dedupLead_lookup records lead data changes i Hi)
      as [Hsame | (_ & _ & Hmerged)].
    + destruct (IH _ _ _ Hsame) as (data' & newer & Hl & Hlen).
      exists data', newer. split; [exact Hl | lia].
    + destruct (IH _ _ _ Hmerged) as (data' & newer & Hl & Hlen).
      exists data', (newer ++ [changedProps data (mergeData data lead)]).
      rewrite <- List.app_assoc. split; [exact Hl|].
      rewrite length_app. simpl. lia.
Qed.

(** A record whose [entryDate] gives NaN is never merged with anything. *)
Lemma fold_dedupLead_frozen (leads : list obj) (records : list record)
    (i : nat) (data : obj) (changes : list obj) :
  records !! i = Some (data, changes) ->
  getTime (get "entryDate" data) = None ->
  fold_left (dedupLead getTime) leads records !! i = Some (data, changes).
Proof.
  revert records. induction leads as [|lead leads IH]; intros records Hi Hnan;
    simpl; [exact Hi|].
  apply IH; [|exact Hnan].
  destruct (dedupLead_lookup records lead data changes i Hi)
    as [Hsame | (_ & Ht & _)]; [exact Hsame|].
  rewrite Hnan in Ht. now destruct (getTime (get "entryDate" lead)).
Qed.

Lemma mergeData_entryDate (original lead : obj) :
  get "entryDate" (mergeData original lead) = get "entryDate" lead.
Proof.
  rewrite !get_own, mergeData_own_other; [reflexivity | |]; discriminate.
Qed.

(** The time of a record's [entryDate] never goes back. *)
Lemma fold_dedupLead_time (leads : list obj) (records : list record)
    (i : nat) (data : obj) (changes : list obj) (t : Z) :
  records !! i = Some (data, changes) ->
  getTime (get "entryDate" data) = Some t ->
  exists data' changes' t',
    fold_left (dedupLead getTime) leads records !! i = Some (data', changes')
    /\ getTime (get "entryDate" data') = Some t' /\ t <= t'.
Proof.
  revert records data changes t.
  induction leads as [|lead leads IH]; intros records data changes t Hi Ht;
    simpl.
  - exists data, changes, t. repeat split; [exact Hi | exact Ht | lia].
  - destruct (dedupLead_lookup records lead data changes i Hi)
      as [Hsame | (_ & Hge & Hmerged)].
    + exact (IH _ _ _ _ Hsame Ht).
    + rewrite Ht in Hge.
      destruct (getTime (get "entryDate" lead)) as [t1|] eqn:Ht1;
        [|discriminate].
      simpl in Hge. apply Z.leb_le in Hge.
      assert (Ht1' : getTime (get "entryDate" (mergeData data lead))
                     = Some t1) by (now rewrite mergeData_entryDate).
      destruct (IH _ _ _ _ Hmerged Ht1') as (data' & changes' & t' & Hl & Hd & Hle).
      exists data', changes', t'. repeat split; [exact Hl | exact Hd | lia].
Qed.

Lemma dedupLead_readsLikeALead (leads : list obj) (records : list record)
    (lead : obj) :
  lead ∈ leads -> readsLikeALead leads records ->
  readsLikeALead leads (dedupLead getTime records lead).
Proof.
  intros Hlead Hinv r Hr. unfold dedupLead in Hr.
  destruct (findIndex (sameLead lead) records) as [k|].
  - destruct (records !! k) as [[original changes]|] eqn:Hk;
      [|now apply Hinv].
    destruct (time_ge _ _); [|now apply Hinv].
    apply list_elem_of_lookup in Hr as [j Hj].
    destruct (decide (k = j)) as [<-|Hne].
    + rewrite list_lookup_insert_eq in Hj by (eapply lookup_lt_Some, Hk).
      injection Hj as <-. exists lead. split; [exact Hlead|].
      intros key. apply mergeData_reads_lead.
    + rewrite list_lookup_insert_ne in Hj by exact Hne.
      apply Hinv. eapply list_elem_of_lookup_2, Hj.
  - apply elem_of_app in Hr as [Hr|Hr]; [now apply Hinv|].
    apply list_elem_of_singleton in Hr as ->. exists lead.
    split; [exact Hlead|]. intros key. apply strict_eq_refl.
Qed.

Lemma fold_dedupLead_readsLikeALead (leads todo : list obj)
    (records : list record) :
  (forall lead, lead ∈ todo -> lead ∈ leads) ->
  readsLikeALead leads records ->
  readsLikeALead leads (fold_left (dedupLead getTime) todo records).
Proof.
  revert records. induction todo as [|lead todo IH]; intros records Hsub Hinv;
    simpl; [exact Hinv|].
  apply IH.
  - intros l Hl. apply Hsub. now apply list_elem_of_further.
  - apply dedupLead_readsLikeALead; [|exact Hinv].
    apply Hsub, list_elem_of_here.
Qed.

End Run.

(** ** The run as a whole *)

(** X3. The records and all their change-sets together are at most as many as
    the leads, and the first lead always gives a record. *)
Theorem records_and_change_sets_bounded (getTime : value -> option Z)
    (lead : obj) (leads : list obj) :
  (length (reconcile getTime leads) + changeSetCount (reconcile getTime leads)
   <= length leads)%nat
  /\ (1 <= length (reconcile getTime (lead :: leads)))%nat.
Proof.
  split.
  - pose proof (fold_dedupLead_count getTime leads []) as H. simpl in H.
    unfold reconcile. lia.
  - unfold reconcile. simpl.
    pose proof (fold_dedupLead_length getTime leads
                  (dedupLead getTime [] lead)) as H.
    simpl in H. exact H.
Qed.

(** X4. Leads processed later leave every record at its index and keep its
    change-sets: they only put newer change-sets in front, at most one for
    each lead. *)
Theorem history_is_only_extended (getTime : value -> option Z)
    (leads more : list obj) (i : nat) (data : obj) (changes : list obj) :
  reconcile getTime leads !! i = Some (data, changes) ->
  exists data' newer,
    reconcile getTime (leads ++ more) !! i = Some (data', newer ++ changes)
    /\ (length newer <= length more)%nat.
Proof.
  intros Hi. unfold reconcile. rewrite fold_left_app.
  exact (fold_dedupLead_history getTime more _ i data changes Hi).
Qed.

Lemma history_is_only_extended_witness :
  exists data' newer,
    reconcile numericTime ([al; bob] ++ [ann_later]) !! 0%nat
    = Some (data', newer ++ [changedProps al (mergeData al bob)])
    /\ (length newer <= length [ann_later])%nat.
Proof.
  exact (history_is_only_extended numericTime [al; bob] [ann_later] 0
           (mergeData al bob) [changedProps al (mergeData al bob)] eq_refl).
Defined.

(** X5. A record whose [entryDate] does not parse is never changed by a later
    lead, whether the lead matches it or not. *)
Theorem unparsable_record_is_frozen (getTime : value -> option Z)
    (leads more : list obj) (i : nat) (data : obj) (changes : list obj) :
  reconcile getTime leads !! i = Some (data, changes) ->
  getTime (get "entryDate" data) = None ->
  reconcile getTime (leads ++ more) !! i = Some (data, changes).
Proof.
  intros Hi Hnan. unfold reconcile. rewrite fold_left_app.
  now apply fold_dedupLead_frozen.
Qed.

Lemma unparsable_record_is_frozen_witness :
  reconcile numericTime ([undated] ++ [al; bob]) !! 0%nat = Some (undated, []).
Proof.
  exact (unparsable_record_is_frozen numericTime [undated] [al; bob] 0
           undated [] eq_refl eq_refl).
Defined.

(** X6. Once the [entryDate] of a record parses, it parses after every later
    lead, to a time that is not earlier. *)
Theorem record_time_never_goes_back (getTime : value -> option Z)
    (leads more : list obj) (i : nat) (data : obj) (changes : list obj)
    (t : Z) :
  reconcile getTime leads !! i = Some (data, changes) ->
  getTime (get "entryDate" data) = Some t ->
  exists data' changes' t',
    reconcile getTime (leads ++ more) !! i = Some (data', changes')
    /\ getTime (get "entryDate" data') = Some t' /\ t <= t'.
Proof.
  intros Hi Ht. unfold reconcile. rewrite fold_left_app.
  now apply (fold_dedupLead_time getTime more _ i data changes t).
Qed.

Lemma record_time_never_goes_back_witness :
  exists data' changes' t',
    reconcile numericTime ([al] ++ [stale; bob]) !! 0%nat
    = Some (data', changes')
    /\ numericTime (get "entryDate" data') = Some t' /\ 100 <= t'.
Proof.
  exact (record_time_never_goes_back numericTime [al] [stale; bob] 0 al []
           100 eq_refl eq_refl).
Defined.

(** X7. The data of every record reads, property by property and up to
    [===], like one of the leads: a merge never mixes the values of two
    leads. *)
Theorem records_read_like_leads (getTime : value -> option Z)
    (leads : list obj) (r : record) :
  r ∈ reconcile getTime leads ->
  exists lead, lead ∈ leads /\
    forall key, strict_eq (get key (fst r)) (get key lead) = true.
Proof.
  intros Hr.
  apply (fold_dedupLead_readsLikeALead getTime leads leads []); [auto | |exact Hr].
  intros r' Hr'. now apply elem_of_nil in Hr'.
Qed.

Lemma records_read_like_leads_witness :
  exists lead, lead ∈ [al; ben; bob; stale] /\
    forall key,
      strict_eq (get key (fst (mergeData al bob,
                               [changedProps al (mergeData al bob)])))
        (get key lead) = true.
Proof.
  apply (records_read_like_leads numericTime [al; ben; bob; stale]).
  vm_compute. apply list_elem_of_here.
Defined.

(** ** The merged object and its change-set *)

Lemma keys_put_name (key : string) (val : value) (o : obj) :
  arrayIndex key = None ->
  keys (put key val o) = if has key o then keys o else keys o ++ [key].
Proof.
  intros Hname. unfold put. destruct (has key o).
  - apply keys_overwrite.
  - unfold define. rewrite Hname. unfold keys. now rewrite map_app.
Qed.

Lemma has_put_other (key k' : string) (val : value) (o : obj) :
  key <> k' -> has k' (put key val o) = has k' o.
Proof.
  intros Hne. rewrite !has_own, own_put.
  destruct (String.eqb_spec key k'); [congruence | reflexivity].
Qed.

(** X8. The merged object lists the properties of the lead in the lead's
    order; [_id] and [email] follow when the lead does not have them. *)
Theorem merged_properties_in_lead_order (original lead : obj) :
  keys (mergeData original lead)
  = keys lead
    ++ (if has "_id" lead then [] else ["_id"])
    ++ (if has "email" lead then [] else ["email"]).
Proof.
  unfold mergeData.
  rewrite keys_put_name by reflexivity.
  rewrite has_put_other by discriminate.
  rewrite keys_put_name by reflexivity.
  destruct (has "_id" lead), (has "email" lead); simpl;
    rewrite ?app_nil_r, <- ?List.app_assoc; reflexivity.
Qed.




(** X10. The identity key that produced the match is never in the change-set of
    the merge; a change-set therefore never holds both [_id] and [email]. *)
Theorem matched_key_is_not_recorded (original lead : obj)
    (changes : list obj) :
  NoDup (keys original) ->
  sameLead lead (original, changes) = true ->
  (strict_eq (get "_id" lead) (get "_id" original) = true ->
   own "_id" (changedProps original (mergeData original lead)) = None)
  /\ (strict_eq (get "email" lead) (get "email" original) = true ->
      own "email" (changedProps original (mergeData original lead)) = None)
  /\ (own "_id" (changedProps original (mergeData original lead)) = None
      \/ own "email" (changedProps original (mergeData original lead)) = None).
Proof.
  intros Hnd Hmatch.
  assert (Hid : strict_eq (get "_id" lead) (get "_id" original) = true ->
    own "_id" (changedProps original (mergeData original lead)) = None).
  { intros Hd. rewrite (own_changedProps _ _ _ Hnd), mergeData_id.
    rewrite strict_eq_sym in Hd. rewrite Hd.
    destruct (own "_id" original) as [val|] eqn:Hown; [|reflexivity].
    now rewrite get_own, Hown, strict_eq_refl. }
  assert (Hemail :
    strict_eq (get "email" lead) (get "email" original) = true ->
    own "email" (changedProps original (mergeData original lead)) = None).
  { intros Hd. rewrite (own_changedProps _ _ _ Hnd), mergeData_email.
    rewrite strict_eq_sym in Hd. rewrite Hd.
    destruct (own "email" original) as [val|] eqn:Hown; [|reflexivity].
    now rewrite get_own, Hown, strict_eq_refl. }
  split; [exact Hid|]. split; [exact Hemail|].
  unfold sameLead in Hmatch. simpl in Hmatch.
  apply orb_true_iff in Hmatch as [H|H]; [left; now apply Hid|].
  right. now apply Hemail.
Qed.

Lemma matched_key_is_not_recorded_witness :
  (strict_eq (get "_id" bob) (get "_id" al) = true ->
   own "_id" (changedProps al (mergeData al bob)) = None)
  /\ (strict_eq (get "email" bob) (get "email" al) = true ->
      own "email" (changedProps al (mergeData al bob)) = None)
  /\ (own "_id" (changedProps al (mergeData al bob)) = None
      \/ own "email" (changedProps al (mergeData al bob)) = None).
Proof.
  exact (matched_key_is_not_recorded al bob [] NoDup_keys_al eq_refl).
Defined.

(** ** The record a lead is merged into *)

(** X11. When a lead matches a record, the record it is compared with is the
    first matching one: it stands at or before that record, no record
    before it matches, and every other record, matching or not, is left as
    it is. *)
Theorem only_first_match_is_touched (getTime : value -> option Z)
    (records : list record) (lead : obj) (j : nat) (r : record) :
  records !! j = Some r ->
  sameLead lead r = true ->
  exists existingIndex,
    findIndex (sameLead lead) records = Some existingIndex
    /\ (existingIndex <= j)%nat
    /\ (forall k r', (k < existingIndex)%nat -> records !! k = Some r' ->
          sameLead lead r' = false)
    /\ (forall k, k <> existingIndex ->
          dedupLead getTime records lead !! k = records !! k).
Proof.
  intros Hj Hmatch.
  destruct (findIndex_found (sameLead lead) records r
              (list_elem_of_lookup_2 _ _ _ Hj) Hmatch) as [i Hf].
  destruct (findIndex_Some _ _ _ Hf) as ([original changes] & Hi & _ & Hfirst).
  exists i. split; [exact Hf|]. split.
  - destruct (Nat.le_gt_cases i j) as [Hle|Hgt]; [exact Hle|].
    rewrite (Hfirst j r Hgt Hj) in Hmatch. discriminate.
  - split; [exact Hfirst|]. intros k Hk. unfold dedupLead.
    rewrite Hf, Hi. destruct (time_ge _ _); [|reflexivity].
    now apply list_lookup_insert_ne.
Qed.

Lemma only_first_match_is_touched_witness :
  exists existingIndex,
    findIndex (sameLead ann_with_bens_email) [(ann, []); (ben, [])]
    = Some existingIndex
    /\ (existingIndex <= 1)%nat
    /\ (forall k r', (k < existingIndex)%nat ->
          [(ann, []); (ben, [])] !! k = Some r' ->
          sameLead ann_with_bens_email r' = false)
    /\ (forall k, k <> existingIndex ->
          dedupLead numericTime [(ann, []); (ben, [])] ann_with_bens_email
            !! k
          = [(ann, []); (ben, [])] !! k).
Proof.
  exact (only_first_match_is_touched numericTime [(ann, []); (ben, [])]
           ann_with_bens_email 1 (ben, []) eq_refl eq_refl).
Defined.

(** * Further properties of the changelog *)

(** ** Alignment *)

Lemma length_append (a b : string) :
  String.length (a +:+ b) = (String.length a + String.length b)%nat.
Proof.
  induction a as [|ch a IH]; [reflexivity|].
  rewrite append_cons. simpl. now rewrite IH.
Qed.

Lemma length_spaces (n : nat) : String.length (spaces n) = n.
Proof. induction n as [|n IH]; simpl; [reflexivity | now rewrite IH]. Qed.

(** X12. In the block of a record every property name is padded to the same
    width, the length of the longest name, which itself gets no padding:
    the colons of the block stand in one column. *)
Theorem names_are_aligned (data : obj) (n : nat) :
  longestPropLength data = Returned n ->
  (forall key, key ∈ keys data -> String.length (padStart n key) = n)
  /\ (exists key, key ∈ keys data /\ padStart n key = key).
Proof.
  intros Hn. pose proof (longestPropLength_spec data) as Hspec.
  rewrite Hn in Hspec. destruct Hspec as [(key & Hkey & Hlen) Hmax].
  split.
  - intros k Hk. specialize (Hmax k Hk). unfold padStart.
    rewrite length_append, length_spaces. lia.
  - exists key. split; [exact Hkey|]. unfold padStart.
    rewrite Hlen, Nat.sub_diag. reflexivity.
Qed.

Lemma names_are_aligned_witness :
  (forall key, key ∈ keys al -> String.length (padStart 9 key) = 9%nat)
  /\ (exists key, key ∈ keys al /\ padStart 9 key = key).
Proof. exact (names_are_aligned al 9 eq_refl). Defined.

(** ** The report as a whole *)

Lemma joinBlocks_cons (b : string) (rest : list string) :
  joinBlocks (b :: rest) = b +:+ laterBlocks rest.
Proof.
  revert b. induction rest as [|b' rest IH]; intros b.
  - simpl. now rewrite append_empty_r.
  - change (joinBlocks (b :: b' :: rest))
      with (b +:+ newline +:+ joinBlocks (b' :: rest)).
    rewrite IH. reflexivity.
Qed.

Lemma logRecords_blocks (records : list record) (index : nat)
    (fullLog : string) :
  logRecords index records fullLog =
  match blocksOf records with
  | TypeError => TypeError
  | Returned blocks =>
      Returned
        (fullLog +:+ match index with
                     | O => joinBlocks blocks
                     | S _ => laterBlocks blocks
                     end,
         afterWriteLog records)
  end.
Proof.
  revert index fullLog.
  induction records as [|[data changes] records IH]; intros index fullLog;
    simpl.
  - destruct index; simpl; now rewrite append_empty_r.
  - unfold blockOf. simpl.
    destruct (longestPropLength (chainChanges data changes)) as [n|];
      [|reflexivity].
    rewrite IH. destruct (blocksOf records) as [blocks|]; [|reflexivity].
    rewrite logLines_from. f_equal. f_equal.
    destruct index.
    + rewrite joinBlocks_cons. now rewrite append_assoc.
    + simpl. now rewrite !append_assoc.
Qed.

(** X13. The report is made of the blocks of the records, in their order, with
    one empty line between two blocks and none before the first; the
    records are left with the chains written into their data. If the block
    of one record cannot be made, there is no report. *)
Theorem report_is_the_joined_blocks (records : list record) :
  writeLog records =
  match blocksOf records with
  | TypeError => TypeError
  | Returned blocks => Returned (joinBlocks blocks, afterWriteLog records)
  end.
Proof.
  unfold writeLog. rewrite logRecords_blocks.
  now destruct (blocksOf records).
Qed.

(** ** When no report is produced *)

Lemma fold_chainEntry_nil (es : list (string * value)) (data : obj) :
  fold_left chainEntry es data = [] -> es = [] /\ data = [].
Proof.
  destruct es as [|kv es]; simpl; [now split|]. intros H. exfalso.
  apply (fold_chainEntry_nonempty es (chainEntry data kv)); [|exact H].
  apply put_nonempty.
Qed.

Lemma chainChanges_nil (data : obj) (changes : list obj) :
  chainChanges data changes = [] <->
  data = [] /\ forall change, change ∈ changes -> change = [].
Proof.
  split.
  - unfold chainChanges. revert data.
    induction changes as [|change changes IH]; intros data; simpl.
    + intros ->. split; [reflexivity|]. intros c Hc.
      now apply elem_of_nil in Hc.
    + intros H. apply IH in H as [Hone Hrest].
      rewrite chainChange_entries in Hone.
      apply fold_chainEntry_nil in Hone as [-> ->].
      split; [reflexivity|]. intros c Hc.
      apply elem_of_cons in Hc as [->|Hc]; [reflexivity | now apply Hrest].
  - intros [-> Hempty]. now apply chainChanges_no_change.
Qed.

Lemma blockOf_TypeError (r : record) :
  blockOf r = TypeError <->
  fst r = [] /\ forall change, change ∈ snd r -> change = [].
Proof.
  rewrite <- chainChanges_nil. unfold blockOf.
  pose proof (longestPropLength_spec (chainChanges (fst r) (snd r))) as H.
  destruct (longestPropLength (chainChanges (fst r) (snd r))) as [n|].
  - split; [discriminate|]. intros Hnil. rewrite Hnil in H.
    destruct H as [(key & Hkey & _) _]. now apply elem_of_nil in Hkey.
  - now split.
Qed.

Lemma blocksOf_TypeError (records : list record) :
  blocksOf records = TypeError <->
  exists r, r ∈ records /\ blockOf r = TypeError.
Proof.
  induction records as [|r records IH]; simpl.
  - split; [discriminate|]. intros (r & Hr & _). now apply elem_of_nil in Hr.
  - destruct (blockOf r) as [b|] eqn:Hb.
    + destruct (blocksOf records) as [bs|].
      * split; [discriminate|]. intros (r' & Hr' & Hb').
        apply elem_of_cons in Hr' as [->|Hr']; [congruence|].
        assert (H : @Returned (list string) bs = TypeError); [|discriminate].
        apply IH. now exists r'.
      * split; [|reflexivity]. intros _.
        destruct (proj1 IH eq_refl) as (r' & Hr' & Hb').
        exists r'. split; [now apply list_elem_of_further | exact Hb'].
    + split; [|reflexivity]. intros _. exists r.
      split; [apply list_elem_of_here | exact Hb].
Qed.

(** X14. Rendering fails exactly when some record has no property and only
    empty change-sets; any other list of records gets its report. *)
Theorem no_report_iff_a_record_is_empty (records : list record) :
  writeLog records = TypeError <->
  exists r, r ∈ records /\ fst r = []
            /\ forall change, change ∈ snd r -> change = [].
Proof.
  unfold writeLog. rewrite logRecords_blocks.
  split.
  - destruct (blocksOf records) as [bs|] eqn:Hbs; [discriminate|]. intros _.
    apply blocksOf_TypeError in Hbs as (r & Hr & Hb).
    apply blockOf_TypeError in Hb. now exists r.
  - intros (r & Hr & Hempty).
    assert (Hbs : blocksOf records = TypeError).
    { apply blocksOf_TypeError. exists r. split; [exact Hr|].
      now apply blockOf_TypeError. }
    now rewrite Hbs.
Qed.

(** ** The lines of a record *)

Lemma own_fold_chainEntry_kept (key : string) (es : list (string * value))
    (data : obj) :
  own key data <> None -> own key (fold_left chainEntry es data) <> None.
Proof.
  revert data. induction es as [|[k v] es IH]; intros data Hown; simpl;
    [exact Hown|].
  apply IH. unfold chainEntry. simpl. rewrite own_put.
  destruct (String.eqb k key); [discriminate | exact Hown].
Qed.

(** X15. No property is dropped from the report: every property of a record's
    data has its line in the block of the record, with the plain value when
    no change-set holds the property. The report is produced when the
    other records have at least one property. *)
Theorem every_property_has_its_line (before after : list record) (data : obj)
    (changes : list obj) (key : string) :
  key ∈ keys data ->
  (forall r, r ∈ before ++ after -> fst r <> []) ->
  exists log records' n val,
    writeLog (before ++ (data, changes) :: after) = Returned (log, records')
    /\ longestPropLength (chainChanges data changes) = Returned n
    /\ own key (chainChanges data changes) = Some val
    /\ (history key changes = [] -> val = get key data)
    /\ occursIn (logLine n key val) log.
Proof.
  intros Hkey Hne.
  assert (Hown : own key (chainChanges data changes) <> None).
  { rewrite chainChanges_entries. apply own_fold_chainEntry_kept.
    intros Hnone. now apply own_None_keys in Hnone. }
  destruct (own key (chainChanges data changes)) as [val|] eqn:Hval;
    [|congruence].
  pose proof (own_elem_of _ _ _ Hval) as Helem.
  destruct (longestPropLength_nonempty (chainChanges data changes)) as [n Hn].
  { intros Hnil. rewrite Hnil in Helem. now apply elem_of_nil in Helem. }
  destruct (logRecords_shows before after data changes 0 n "" key val
              Hne Hn Helem) as (log & records' & Hlog & Hocc).
  exists log, records', n, val. repeat split; try assumption.
  intros Hplain. pose proof (get_chainChanges_plain key data changes Hplain) as H.
  now rewrite get_own, Hval in H.
Qed.

Lemma every_property_has_its_line_witness :
  exists log records' n val,
    writeLog ([(ben, [])] ++ (bob, [[("name", VStr "Al")]]) :: [])
    = Returned (log, records')
    /\ longestPropLength (chainChanges bob [[("name", VStr "Al")]])
       = Returned n
    /\ own "email" (chainChanges bob [[("name", VStr "Al")]]) = Some val
    /\ (history "email" [[("name", VStr "Al")]] = [] ->
        val = get "email" bob)
    /\ occursIn (logLine n "email" val) log.
Proof.
  apply (every_property_has_its_line [(ben, [])] [] bob
           [[("name", VStr "Al")]] "email").
  - vm_compute. do 1 apply list_elem_of_further. apply list_elem_of_here.
  - intros r Hr. apply list_elem_of_singleton in Hr as ->. discriminate.
Defined.


(** ** The order of the lines *)

Lemma sublist_keys_insertIndex (n : N) (key : string) (val : value) (o : obj) :
  keys o `sublist_of` keys (insertIndex n key val o).
Proof.
  induction o as [|[k v] o IH]; simpl.
  - apply sublist_nil_l.
  - destruct (arrayIndex k) as [m|]; [destruct (m <? n)%N|]; simpl.
    + now apply sublist_skip.
    + apply sublist_cons. reflexivity.
    + apply sublist_cons. reflexivity.
Qed.

Lemma sublist_keys_put (key : string) (val : value) (o : obj) :
  keys o `sublist_of` keys (put key val o).
Proof.
  unfold put. destruct (has key o).
  - now rewrite keys_overwrite.
  - unfold define. destruct (arrayIndex key) as [n|].
    + apply sublist_keys_insertIndex.
    + unfold keys. rewrite map_app. apply sublist_inserts_r. reflexivity.
Qed.

Lemma keys_put_present (key : string) (val : value) (o : obj) :
  has key o = true -> keys (put key val o) = keys o.
Proof. intros Hhas. unfold put. rewrite Hhas. apply keys_overwrite. Qed.

Lemma has_keys (key : string) (o : obj) : has key o = true <-> key ∈ keys o.
Proof.
  rewrite has_own. destruct (own key o) as [v|] eqn:E.
  - split; [intros _|reflexivity]. eapply elem_of_keys, own_elem_of, E.
  - apply own_None_keys in E. split; [discriminate | contradiction].
Qed.

Lemma fold_chainEntry_keys (es : list (string * value)) (data : obj) :
  keys data `sublist_of` keys (fold_left chainEntry es data)
  /\ ((forall kv, kv ∈ es -> fst kv ∈ keys data) ->
      keys (fold_left chainEntry es data) = keys data).
Proof.
  revert data. induction es as [|[k v] es IH]; intros data; simpl.
  - split; reflexivity.
  - destruct (IH (chainEntry data (k, v))) as [IHsub IHeq]. split.
    + etransitivity; [|exact IHsub]. apply sublist_keys_put.
    + intros Hin.
      assert (Hk : keys (chainEntry data (k, v)) = keys data).
      { apply keys_put_present, has_keys.
        apply (Hin (k, v)), list_elem_of_here. }
      rewrite IHeq; [exact Hk|]. intros kv Hkv. rewrite Hk.
      apply Hin. now apply list_elem_of_further.
Qed.

(** X17. Writing the chains keeps the properties of the data in their order:
    the names of the data are, in order, among the names of the object the
    lines are made from, and they are all of its names when every recorded
    property is a property of the data. *)
Theorem lines_keep_property_order (data : obj) (changes : list obj) :
  keys data `sublist_of` keys (chainChanges data changes)
  /\ ((forall change key, change ∈ changes -> key ∈ keys change ->
         key ∈ keys data) ->
      keys (chainChanges data changes) = keys data).
Proof.
  rewrite chainChanges_entries.
  destruct (fold_chainEntry_keys (concat (map entries changes)) data)
    as [Hsub Heq].
  split; [exact Hsub|]. intros Hin. apply Heq. intros [k v] Hkv.
  apply list_elem_of_In, in_concat in Hkv as (change & Hchange & Hkv).
  apply in_map_iff in Hchange as (c & <- & Hc).
  apply (Hin c k); [now apply list_elem_of_In|].
  eapply elem_of_keys. apply list_elem_of_In. exact Hkv.
Qed.

Lemma lines_keep_property_order_witness :
  keys (chainChanges (mergeData al bob) [changedProps al (mergeData al bob)])
  = keys (mergeData al bob).
Proof.
  apply (lines_keep_property_order (mergeData al bob)
           [changedProps al (mergeData al bob)]).
  intros change key Hchange Hkey.
  apply list_elem_of_singleton in Hchange as ->.
  vm_compute in Hkey |- *.
  repeat (apply elem_of_cons in Hkey as [->|Hkey];
          [repeat (apply list_elem_of_here || apply list_elem_of_further)|]).
  now apply elem_of_nil in Hkey.
Defined.

(** ** The chain of a changed property *)

Lemma logLine_chain (n : nat) (key chain : string) :
  logLine n key (VStr chain) = padStart n key +:+ ": " +:+ chain +:+ newline.
Proof. reflexivity. Qed.

(** X18. For a record [[data, changes]] and a property [key] that some
    change-set of [changes] holds, the report shows the line of [key] with
    the recorded values from the oldest to the most recent (the reverse of
    the storage order), then the current value, all joined by [" ==> "].
    The property is one of the data or not a name of [Object.prototype],
    and the other records have at least one property, so that the report
    is produced. *)
Theorem chain_line_is_in_the_report (before after : list record) (data : obj)
    (changes : list obj) (change : obj) (key : string) :
  change ∈ changes -> has key change = true ->
  key ∈ keys data \/ key ∉ objectPrototypeNames ->
  (forall r, r ∈ before ++ after -> fst r <> []) ->
  exists log records' n,
    writeLog (before ++ (data, changes) :: after) = Returned (log, records')
    /\ longestPropLength (chainChanges data changes) = Returned n
    /\ own key (chainChanges data changes)
       = Some (VStr (joinArrow
                       (map toStr (rev (history key changes))
                        ++ [toStr (get key data)])))
    /\ occursIn
         (padStart n key +:+ ": "
          +:+ joinArrow
                (map toStr (rev (history key changes))
                 ++ [toStr (get key data)])
          +:+ newline)
         log.
Proof.
  intros Hin Hhas _ Hne.
  pose proof (get_chainChanges key data changes
                (history_nonempty key changes change Hin Hhas)) as Hget.
  unfold chainOf in Hget.
  assert (Hown : own key (chainChanges data changes)
                 = Some (VStr (joinArrow
                                 (map toStr (rev (history key changes))
                                  ++ [toStr (get key data)])))).
  { rewrite get_own in Hget.
    destruct (own key (chainChanges data changes)); [congruence|discriminate]. }
  pose proof (own_elem_of _ _ _ Hown) as Helem.
  destruct (longestPropLength_nonempty (chainChanges data changes)) as [n Hn].
  { intros Hnil. rewrite Hnil in Helem. now apply elem_of_nil in Helem. }
  destruct (logRecords_shows before after data changes 0 n "" key _
              Hne Hn Helem) as (log & records' & Hlog & Hocc).
  rewrite logLine_chain in Hocc.
  now exists log, records', n.
Qed.

Lemma chain_line_is_in_the_report_witness :
  exists log records' n,
    writeLog
      ([(ben, [])]
       ++ (bob, [[("name", VStr "Al")]; [("name", VStr "A")]]) :: [])
    = Returned (log, records')
    /\ longestPropLength
         (chainChanges bob [[("name", VStr "Al")]; [("name", VStr "A")]])
       = Returned n
    /\ own "name"
         (chainChanges bob [[("name", VStr "Al")]; [("name", VStr "A")]])
       = Some (VStr (joinArrow
                       (map toStr
                          (rev (history "name"
                                  [[("name", VStr "Al")];
                                   [("name", VStr "A")]]))
                        ++ [toStr (get "name" bob)])))
    /\ occursIn
         (padStart n "name" +:+ ": "
          +:+ joinArrow
                (map toStr
                   (rev (history "name"
                           [[("name", VStr "Al")]; [("name", VStr "A")]]))
                 ++ [toStr (get "name" bob)])
          +:+ newline)
         log.
Proof.
  apply (chain_line_is_in_the_report [(ben, [])] [] bob
           [[("name", VStr "Al")]; [("name", VStr "A")]]
           [("name", VStr "Al")] "name").
  - apply list_elem_of_here.
  - reflexivity.
  - left. vm_compute. do 3 apply list_elem_of_further. apply list_elem_of_here.
  - intros r Hr. apply list_elem_of_singleton in Hr as ->. discriminate.
Defined.

(** ** A property the newer lead does not have *)

(** X16. When a lead is merged into a record that has a property the lead
    lacks (not [_id] or [email], not a name of [Object.prototype], its
    value not [undefined]), the merged object does not have the property,
    the new change-set records its previous value, and the report shows
    the property's line with the earlier recorded values, that previous
    value and, last, [undefined]. The records are taken to have at least
    one property each, so that the report is produced. *)
Theorem dropped_property_shows_undefined (getTime : value -> option Z)
    (records : list record) (lead original : obj) (changes : list obj)
    (existingIndex : nat) (key : string) (old : value) :
  findIndex (sameLead lead) records = Some existingIndex ->
  records !! existingIndex = Some (original, changes) ->
  time_ge (getTime (get "entryDate" lead))
    (getTime (get "entryDate" original)) = true ->
  NoDup (keys original) ->
  (forall r, r ∈ records -> fst r <> []) ->
  own key original = Some old -> old <> VUndefined ->
  own key lead = None -> key <> "_id" -> key <> "email" ->
  key ∉ objectPrototypeNames ->
  exists newData changed log records' n,
    dedupLead getTime records lead !! existingIndex
      = Some (newData, changed :: changes)
    /\ own key newData = None
    /\ own key changed = Some old
    /\ writeLog (dedupLead getTime records lead) = Returned (log, records')
    /\ longestPropLength (chainChanges newData (changed :: changes))
       = Returned n
    /\ occursIn
         (padStart n key +:+ ": "
          +:+ joinArrow
                (map toStr (rev (history key changes))
                 ++ [toStr old; "undefined"])
          +:+ newline)
         log.
Proof.
  intros Hf Hr Ht Hnd Hne Hold Hdef Hlead Hid Hemail _.
  set (newData := mergeData original lead).
  set (changed := changedProps original newData).
  assert (Hlt : (existingIndex < length records)%nat)
    by (eapply lookup_lt_Some, Hr).
  assert (Hgone : own key newData = None)
    by (unfold newData; now rewrite mergeData_own_other).
  assert (Hrec : own key changed = Some old).
  { unfold changed. rewrite (own_changedProps _ _ _ Hnd), Hold, get_own, Hgone.
    destruct old; try reflexivity. congruence. }
  assert (Hh : history key (changed :: changes) = old :: history key changes).
  { rewrite history_cons by apply NoDup_keys_changedProps.
    fold newData. fold changed. now rewrite Hrec. }
  assert (Hget : get key (chainChanges newData (changed :: changes))
                 = VStr (joinArrow
                           (map toStr (rev (history key changes))
                            ++ [toStr old; "undefined"]))).
  { rewrite get_chainChanges by (rewrite Hh; discriminate).
    unfold chainOf. rewrite Hh, get_own, Hgone. simpl.
    now rewrite map_app, <- List.app_assoc. }
  assert (Helem : (key, VStr (joinArrow
                                (map toStr (rev (history key changes))
                                 ++ [toStr old; "undefined"])))
                  ∈ chainChanges newData (changed :: changes)).
  { apply own_elem_of. rewrite get_own in Hget.
    destruct (own key (chainChanges newData (changed :: changes)));
      [congruence | discriminate]. }
  destruct (longestPropLength_nonempty
              (chainChanges newData (changed :: changes))) as [n Hn].
  { intros Hnil. rewrite Hnil in Helem. now apply elem_of_nil in Helem. }
  rewrite (dedupLead_merge getTime _ _ _ _ _ Hf Hr Ht).
  fold newData. fold changed.
  assert (Hothers : forall r,
            r ∈ take existingIndex records ++ drop (S existingIndex) records ->
            fst r <> []).
  { intros r Hin. apply Hne. apply elem_of_app in Hin as [Hin|Hin].
    - exact (subseteq_take _ _ _ Hin).
    - exact (subseteq_drop _ _ _ Hin). }
  destruct (logRecords_shows (take existingIndex records)
              (drop (S existingIndex) records) newData (changed :: changes)
              0 n "" key _ Hothers Hn Helem)
    as (log & records' & Hlog & Hocc).
  rewrite logLine_chain in Hocc.
  exists newData, changed, log, records', n.
  split; [now apply list_lookup_insert_eq|].
  split; [exact Hgone|]. split; [exact Hrec|].
  split; [|split; [exact Hn | exact Hocc]].
  unfold writeLog. rewrite insert_take_drop by exact Hlt. exact Hlog.
Qed.

Lemma dropped_property_shows_undefined_witness :
  exists newData changed log records' n,
    dedupLead numericTime (reconcile numericTime [al; bob]) nameless !! 0%nat
      = Some (newData, changed :: [changedProps al (mergeData al bob)])
    /\ own "name" newData = None
    /\ own "name" changed = Some (VStr "Bob")
    /\ writeLog (dedupLead numericTime (reconcile numericTime [al; bob])
                   nameless)
       = Returned (log, records')
    /\ longestPropLength
         (chainChanges newData
            (changed :: [changedProps al (mergeData al bob)]))
       = Returned n
    /\ occursIn
         (padStart n "name" +:+ ": " +:+ "Al ==> Bob ==> undefined"
          +:+ newline)
         log.
Proof.
  apply (dropped_property_shows_undefined numericTime
           (reconcile numericTime [al; bob]) nameless (mergeData al bob)
           [changedProps al (mergeData al bob)] 0 "name" (VStr "Bob")).
  - reflexivity.
  - reflexivity.
  - reflexivity.
  - apply (bool_decide_unpack (NoDup (keys (mergeData al bob)))).
    vm_compute. exact I.
  - intros r Hr. vm_compute in Hr.
    apply list_elem_of_singleton in Hr as ->. discriminate.
  - reflexivity.
  - discriminate.
  - reflexivity.
  - discriminate.
  - discriminate.
  - apply (bool_decide_unpack ("name" ∉ objectPrototypeNames)).
    vm_compute. exact I.
Defined.

(** The report of that run: [name] is a line of its own below the
    properties of the last lead. *)
Example report_with_dropped_property :
  writeLog (reconcile numericTime [al; bob; nameless]) =
  Returned
    ("      _id: 1" +:+ newline +:+
     "    email: a@x.com ==> b@x.com" +:+ newline +:+
     "entryDate: 100 ==> 200 ==> 400" +:+ newline +:+
     "     name: Al ==> Bob ==> undefined" +:+ newline,
     afterWriteLog (reconcile numericTime [al; bob; nameless])).
Proof. vm_compute. reflexivity. Qed.
